(** * Environment.cpp (ASP.NET Core Module V2, CommonLib)

    A shallow embedding of [Environment] : the four buffered queries
    ([ExpandEnvironmentVariables], [GetEnvironmentVariableValue],
    [GetCurrentDirectoryValue], [GetDllDirectoryValue]) and the shadow-copy
    synchronizer ([CopyToDirectory], [CopyDirTo]), followed by the properties
    of the specification that concern them. *)

From Stdlib Require Import ZArith String Ascii List Lia Bool.
From stdpp Require Import gmap strings list fin_maps.

Local Open Scope string_scope.
Local Open Scope list_scope.
Local Open Scope Z_scope.

(** ** Outcomes of a C++ call

    A call returns, throws, or (in the model only) exhausts the fuel that
    bounds its loops and its recursion. *)

Definition wstring := string.
Definition DWORD := Z.

Inductive exn : Type :=
| system_error (code : DWORD) (what : string)
| filesystem_error (what : string).

Inductive outcome (A : Type) : Type :=
| Ok (a : A)
| Throw (e : exn)
| OutOfFuel.
Arguments Ok {A} a.
Arguments Throw {A} e.
Arguments OutOfFuel {A}.

(** State and exceptions: a computation over a state [S]. *)
Definition M (S A : Type) : Type := S -> outcome (A * S).

Definition ret {S A} (a : A) : M S A := fun s => Ok (a, s).
Definition throw {S A} (e : exn) : M S A := fun _ => Throw e.
Definition bind {S A B} (m : M S A) (k : A -> M S B) : M S B :=
  fun s => match m s with
           | Ok (a, s') => k a s'
           | Throw e => Throw e
           | OutOfFuel => OutOfFuel
           end.

Declare Scope cpp_scope.
Delimit Scope cpp_scope with cpp.
Notation "'let*' x ':=' m 'in' k" := (bind m (fun x => k))
  (at level 10, x pattern, m at level 100, k at level 200) : cpp_scope.
Notation "m ';;' k" := (bind m (fun _ => k))
  (at level 100, k at level 200, right associativity) : cpp_scope.
Local Open Scope cpp_scope.

(** ** Machine integers and wide strings *)

Definition wrap32 (z : Z) : DWORD := z mod 2 ^ 32.

Definition ERROR_SUCCESS : DWORD := 0.
Definition ERROR_ENVVAR_NOT_FOUND : DWORD := 203.

Definition NUL : ascii := Ascii.zero.

(** [std::wstring::resize]: truncate, or pad with value-initialised
    characters. The string is taken to fit in memory: the
    [std::length_error] or [std::bad_alloc] that [resize] throws for a
    size that the process cannot hold is not represented. What is said
    below of a query that returns, or that raises an error of its own, is
    said of a process with memory enough for the string. *)
Fixpoint resize (n : nat) (s : wstring) : wstring :=
  match n with
  | O => EmptyString
  | S n' =>
      match s with
      | EmptyString => String NUL (resize n' EmptyString)
      | String c s' => String c (resize n' s')
      end
  end.

(** [std::wstring::size], as a [size_t]. *)
Definition size (s : wstring) : Z := Z.of_nat (String.length s).

(** What a facility leaves in the caller's buffer when it stores [out]
    there: the first characters are replaced, the rest is kept, and nothing
    is written past the end of the buffer. *)
Fixpoint store (out buf : wstring) : wstring :=
  match out, buf with
  | String c out', String _ buf' => String c (store out' buf')
  | _, _ => buf
  end.

(** ** The operating system, as seen by the queries

    A thread has its last-error value; [ticks] counts the facility calls made
    so far, so that the facilities may answer differently from one call to
    the next (the environment can be changed between a probe and a fill). *)

Record thread : Type := mkThread { ticks : nat; last_error : DWORD }.

(** The raw answer of a facility: the DWORD it returns, the last-error value
    it sets (if it sets one), and the characters it stores in the buffer. *)
Record reply : Type := mkReply { r_ret : Z; r_err : option Z; r_out : wstring }.

(** The facilities of kernel32 used by [Environment]; each is asked with the
    call's number, its string argument (if any) and the buffer length. *)
Record kernel32 : Type := mkKernel32 {
  k_ExpandEnvironmentStringsW : nat -> wstring -> Z -> reply;
  k_GetEnvironmentVariableW : nat -> wstring -> Z -> reply;
  k_GetCurrentDirectory : nat -> Z -> reply;
  k_GetDllDirectory : nat -> Z -> reply
}.

Definition GetLastError : M thread DWORD := fun st => Ok (last_error st, st).

Definition SetLastError (e : DWORD) : M thread unit :=
  fun st => Ok (tt, mkThread (ticks st) e).

(** The thread after a facility has answered [r]. *)
Definition after_call (r : reply) (st : thread) : thread :=
  mkThread (S (ticks st))
           (match r_err r with
            | Some e => wrap32 e
            | None => last_error st
            end).

(** One call of a facility: [lpBuffer] is [None] for a null pointer; at most
    [nSize] characters are stored. *)
Definition call (f : nat -> Z -> reply) (lpBuffer : option wstring) (nSize : DWORD)
  : M thread (DWORD * option wstring) :=
  fun st =>
    let r := f (ticks st) nSize in
    let stored := String.substring 0 (Z.to_nat nSize) (r_out r) in
    Ok ((wrap32 (r_ret r), option_map (store stored) lpBuffer), after_call r st).

Definition ExpandEnvironmentStringsW (K : kernel32) (lpSrc : wstring)
    (lpDst : option wstring) (nSize : DWORD) :=
  call (fun t => k_ExpandEnvironmentStringsW K t lpSrc) lpDst nSize.

Definition GetEnvironmentVariableW (K : kernel32) (lpName : wstring)
    (lpBuffer : option wstring) (nSize : DWORD) :=
  call (fun t => k_GetEnvironmentVariableW K t lpName) lpBuffer nSize.

Definition GetCurrentDirectory (K : kernel32) (nBufferLength : DWORD)
    (lpBuffer : option wstring) :=
  call (k_GetCurrentDirectory K) lpBuffer nBufferLength.

Definition GetDllDirectory (K : kernel32) (nBufferLength : DWORD)
    (lpBuffer : option wstring) :=
  call (k_GetDllDirectory K) lpBuffer nBufferLength.

(** The buffer handed to a facility is [expandedStr.data()]: never null. *)
Definition data (o : option wstring) (old : wstring) : wstring :=
  match o with Some b => b | None => old end.

(** ** Environment::ExpandEnvironmentVariables *)

Fixpoint ExpandEnvironmentVariables_loop (fuel : nat) (K : kernel32) (str : wstring)
    (expandedStr : wstring) (requestedSize : DWORD) : M thread (wstring * DWORD) :=
  match fuel with
  | O => fun _ => OutOfFuel
  | S fuel' =>
      let expandedStr := resize (Z.to_nat requestedSize) expandedStr in
      let* (requestedSize, buf) :=
        ExpandEnvironmentStringsW K str (Some expandedStr) requestedSize in
      let expandedStr := data buf expandedStr in
      if requestedSize =? 0 then
        let* e := GetLastError in
        throw (system_error e "ExpandEnvironmentVariables")
      else if negb (size expandedStr =? requestedSize) then
        ExpandEnvironmentVariables_loop fuel' K str expandedStr requestedSize
      else ret (expandedStr, requestedSize)
  end.

Definition ExpandEnvironmentVariables (fuel : nat) (K : kernel32) (str : wstring)
  : M thread wstring :=
  let* (requestedSize, _) := ExpandEnvironmentStringsW K str None 0 in
  if requestedSize =? 0 then
    let* e := GetLastError in
    throw (system_error e "ExpandEnvironmentVariables")
  else
    let* (expandedStr, requestedSize) :=
      ExpandEnvironmentVariables_loop fuel K str EmptyString requestedSize in
    (* trim null character *)
    ret (resize (Z.to_nat (wrap32 (requestedSize - 1))) expandedStr).

(** ** Environment::GetEnvironmentVariableValue

    [None] is [std::nullopt]. The loop either leaves with the buffer and the
    size, or returns [std::nullopt] from inside. *)

Fixpoint GetEnvironmentVariableValue_loop (fuel : nat) (K : kernel32) (str : wstring)
    (expandedStr : wstring) (requestedSize : DWORD)
  : M thread (option (wstring * DWORD)) :=
  match fuel with
  | O => fun _ => OutOfFuel
  | S fuel' =>
      let expandedStr := resize (Z.to_nat requestedSize) expandedStr in
      let* (requestedSize, buf) :=
        GetEnvironmentVariableW K str (Some expandedStr) requestedSize in
      let expandedStr := data buf expandedStr in
      if requestedSize =? 0 then
        let* e := GetLastError in
        if e =? ERROR_ENVVAR_NOT_FOUND then ret None
        else throw (system_error e "ExpandEnvironmentStringsW")
      else if negb (size expandedStr =? wrap32 (requestedSize + 1)) then
        GetEnvironmentVariableValue_loop fuel' K str expandedStr requestedSize
      else ret (Some (expandedStr, requestedSize))
  end.

Definition GetEnvironmentVariableValue (fuel : nat) (K : kernel32) (str : wstring)
  : M thread (option wstring) :=
  let* (requestedSize, _) := GetEnvironmentVariableW K str None 0 in
  if requestedSize =? 0 then
    let* e := GetLastError in
    if e =? ERROR_ENVVAR_NOT_FOUND then ret None
    else throw (system_error e "GetEnvironmentVariableW")
  else if requestedSize =? 1 then
    (* String just contains a nullcharacter, return nothing *)
    ret None
  else
    let* r := GetEnvironmentVariableValue_loop fuel K str EmptyString requestedSize in
    match r with
    | None => ret None
    | Some (expandedStr, requestedSize) =>
        ret (Some (resize (Z.to_nat requestedSize) expandedStr))
    end.

(** ** Environment::GetCurrentDirectoryValue *)

Fixpoint GetCurrentDirectoryValue_loop (fuel : nat) (K : kernel32)
    (expandedStr : wstring) (requestedSize : DWORD) : M thread (wstring * DWORD) :=
  match fuel with
  | O => fun _ => OutOfFuel
  | S fuel' =>
      let expandedStr := resize (Z.to_nat requestedSize) expandedStr in
      let* (requestedSize, buf) :=
        GetCurrentDirectory K requestedSize (Some expandedStr) in
      let expandedStr := data buf expandedStr in
      if requestedSize =? 0 then
        let* e := GetLastError in
        throw (system_error e "GetCurrentDirectory")
      else if negb (size expandedStr =? wrap32 (requestedSize + 1)) then
        GetCurrentDirectoryValue_loop fuel' K expandedStr requestedSize
      else ret (expandedStr, requestedSize)
  end.

Definition GetCurrentDirectoryValue (fuel : nat) (K : kernel32) : M thread wstring :=
  let* (requestedSize, _) := GetCurrentDirectory K 0 None in
  if requestedSize =? 0 then
    let* e := GetLastError in
    throw (system_error e "GetCurrentDirectory")
  else
    let* (expandedStr, requestedSize) :=
      GetCurrentDirectoryValue_loop fuel K EmptyString requestedSize in
    ret (resize (Z.to_nat requestedSize) expandedStr).

(** ** Environment::GetDllDirectoryValue *)

Fixpoint GetDllDirectoryValue_loop (fuel : nat) (K : kernel32)
    (expandedStr : wstring) (requestedSize : DWORD) : M thread (wstring * DWORD) :=
  match fuel with
  | O => fun _ => OutOfFuel
  | S fuel' =>
      let expandedStr := resize (Z.to_nat requestedSize) expandedStr in
      let* (requestedSize, buf) :=
        GetDllDirectory K requestedSize (Some expandedStr) in
      let expandedStr := data buf expandedStr in
      let* e := GetLastError in
      (* 0 might be returned if GetDllDirectory is empty *)
      if (requestedSize =? 0) && negb (e =? ERROR_SUCCESS) then
        throw (system_error e "GetDllDirectory")
      else if negb (size expandedStr =? wrap32 (requestedSize + 1)) then
        GetDllDirectoryValue_loop fuel' K expandedStr requestedSize
      else ret (expandedStr, requestedSize)
  end.

Definition GetDllDirectoryValue (fuel : nat) (K : kernel32) : M thread wstring :=
  SetLastError ERROR_SUCCESS;;
  let* (requestedSize, _) := GetDllDirectory K 0 None in
  if requestedSize =? 0 then
    let* e := GetLastError in
    if negb (e =? ERROR_SUCCESS) then throw (system_error e "GetDllDirectory")
    else ret EmptyString
  else
    let* (expandedStr, requestedSize) :=
      GetDllDirectoryValue_loop fuel K EmptyString requestedSize in
    ret (resize (Z.to_nat requestedSize) expandedStr).

(** ** Paths and the file system

    A [std::filesystem::path] is modelled by the list of its components; a
    native string converts to a path by splitting it at the directory
    separators. Components are taken as they are written: [.] and [..] are
    not resolved and the case of letters counts. The file system maps the
    paths that exist to what is there: a regular file with its last-write
    time and content, or a directory with its last-write time. Other kinds of
    entries, which [CopyDirTo] passes over, are not represented. *)

Abbreviation path := (list string).

Inductive node : Type :=
| File (mtime : Z) (content : string)
| Directory (mtime : Z).

Global Instance node_eq_dec : EqDecision node.
Proof. solve_decision. Defined.

Inductive file_type : Type := regular | directory.

Definition status (n : node) : file_type :=
  match n with File _ _ => regular | Directory _ => directory end.

Definition write_time (n : node) : Z :=
  match n with File t _ => t | Directory t => t end.

Inductive log_record : Type :=
| LogInfo (msg : wstring)
| LogLastError.

Record world : Type := mkWorld { files : gmap path node; log : list log_record }.

(** What the operating system may refuse for reasons of its own (a locked
    file, an access right), and the time it stamps on a new directory. *)
Inductive request : Type :=
| ReqCreateDirectory (p : path)
| ReqCopyFile (src dst : path)
| ReqRemoveAll (p : path).

Record host : Type := mkHost { refuses : request -> bool; now : Z }.

Definition is_separator (c : ascii) : bool :=
  (Ascii.eqb c "\" || Ascii.eqb c "/")%char.

Fixpoint split_components (s : wstring) (cur : string) : path :=
  match s with
  | EmptyString => if String.eqb cur "" then [] else [cur]
  | String c s' =>
      if is_separator c then
        if String.eqb cur "" then split_components s' ""
        else cur :: split_components s' ""
      else split_components s' (cur ++ String c "")%string
  end.

(** [std::filesystem::path(const std::wstring&)]. The components are read
    from the root: the path of a string that is not [absolute] (below) is
    not the place that the system would take it for. *)
Definition to_path (s : wstring) : path := split_components s "".

Definition parent_path (p : path) : path := removelast p.

(** [path::filename()]: the last component, as a path. *)
Definition filename (p : path) : path :=
  match last p with Some n => [n] | None => [] end.

(** [operator/] on a path and a relative path. *)
Definition path_append (p q : path) : path := (p ++ q)%list.
Infix "//" := path_append (at level 40, left associativity).

Definition is_dir (m : gmap path node) (p : path) : bool :=
  match m !! p with Some (Directory _) => true | _ => false end.

Definition present (m : gmap path node) (p : path) : bool :=
  match m !! p with Some _ => true | None => false end.

(** [std::filesystem::exists], [directory_entry::exists]. Here and in
    [last_write_time] and [directory_iterator] the file system is taken to
    be readable: the [filesystem_error] that these calls raise when the
    system fails to read an entry (a directory without access, a broken
    link) is not represented, and a [host] can refuse writes only. What is
    said below of a walk that goes on is said of a file system that can be
    read. *)
Definition fs_exists (p : path) : M world bool :=
  fun w => Ok (present (files w) p, w).

(** [std::filesystem::last_write_time]. *)
Definition last_write_time (p : path) : M world Z :=
  fun w => match files w !! p with
           | Some n => Ok (write_time n, w)
           | None => Throw (filesystem_error "last_write_time")
           end.

(** [CreateDirectory] succeeds when nothing is at [p], the parent is a
    directory and the system does not refuse. Here and in [CopyFile] and
    [remove_all], only the entry made or removed changes: the last-write
    time of the directory that holds it, which the system moves, is left as
    it is. The statements below speak of the time of a directory only where
    no entry is made or removed in it. *)
Definition CreateDirectory_permitted (H : host) (m : gmap path node) (p : path) : bool :=
  negb (present m p) && is_dir m (parent_path p)
  && negb (refuses H (ReqCreateDirectory p)).

Definition CreateDirectory (H : host) (p : path) : M world bool :=
  fun w =>
    if CreateDirectory_permitted H (files w) p
    then Ok (true, mkWorld (<[p := Directory (now H)]> (files w)) (log w))
    else Ok (false, w).

(** [CopyFile] succeeds when the source is a regular file, the destination's
    parent is a directory, the destination is not a directory (nor, with
    [bFailIfExists], anything at all), is not the source itself, and the
    system does not refuse. The copy has the source's bytes and its
    last-write time. *)
Definition CopyFile_permitted (H : host) (m : gmap path node) (src dst : path)
    (bFailIfExists : bool) : bool :=
  is_dir m (parent_path dst) && negb (is_dir m dst)
  && negb (bFailIfExists && present m dst)
  && negb (bool_decide (src = dst))
  && negb (refuses H (ReqCopyFile src dst)).

Definition CopyFile (H : host) (src dst : path) (bFailIfExists : bool) : M world bool :=
  fun w =>
    match files w !! src with
    | Some (File t c) =>
        if CopyFile_permitted H (files w) src dst bFailIfExists
        then Ok (true, mkWorld (<[dst := File t c]> (files w)) (log w))
        else Ok (false, w)
    | _ => Ok (false, w)
    end.

(** [std::filesystem::remove_all] removes [p] and everything below it, or
    throws. *)
Definition remove_all (H : host) (p : path) : M world unit :=
  fun w =>
    if refuses H (ReqRemoveAll p) then Throw (filesystem_error "remove_all")
    else Ok (tt, mkWorld (filter (fun kv => ¬ p `prefix_of` kv.1) (files w)) (log w)).

Definition LOG_INFO (msg : wstring) : M world unit :=
  fun w => Ok (tt, mkWorld (files w) (log w ++ [LogInfo msg])).

Definition LOG_LAST_ERROR : M world unit :=
  fun w => Ok (tt, mkWorld (files w) (log w ++ [LogLastError])).

(** A [directory_entry] produced by an iterator: its path and the file type
    found when the directory was read. *)
Record directory_entry : Type := mkEntry { entry_path : path; entry_type : file_type }.

Definition child_of (p k : path) : Prop :=
  length k = S (length p) ∧ p `prefix_of` k.

Global Instance child_of_dec p k : Decision (child_of p k).
Proof. unfold child_of. apply _. Defined.

Definition children (m : gmap path node) (p : path) : list directory_entry :=
  omap (fun kv => if decide (child_of p kv.1)
                  then Some (mkEntry kv.1 (status kv.2)) else None)
       (map_to_list m).

(** [std::filesystem::directory_iterator(p)]: the entries directly under
    [p], as found when the iterator is made; throws unless [p] is a
    directory. *)
Definition directory_iterator (p : path) : M world (list directory_entry) :=
  fun w => match files w !! p with
           | Some (Directory _) => Ok (children (files w) p, w)
           | _ => Throw (filesystem_error "directory_iterator")
           end.

(** A range-based [for]. *)
Fixpoint for_each {S A : Type} (l : list A) (body : A -> M S unit) : M S unit :=
  match l with
  | [] => ret tt
  | x :: l' => body x;; for_each l' body
  end.

(** ** Environment::CopyDirTo *)

(** The branch of the loop body for a regular file [p]. *)
Definition CopyDirTo_file (H : host) (target_folder : path) (p : directory_entry)
  : M world unit :=
  let t := filename (entry_path p) in
  let d := target_folder // t in
  let* d_exists := fs_exists d in
  let* up_to_date :=
    (if d_exists then
       let* originalFileTime := last_write_time (entry_path p) in
       let* destFileTime := last_write_time d in
       ret (originalFileTime <=? destFileTime) (* file write time is the same *)
     else ret false) in
  if up_to_date then ret tt (* continue *)
  else
    let* res := CopyFile H (entry_path p) d false in
    if res then LOG_INFO "WOW" else LOG_LAST_ERROR.

(** The loop body, given the function to call on a subdirectory. *)
Definition CopyDirTo_body (recurse : path -> path -> M world unit) (H : host)
    (target_folder : path) (p : directory_entry) : M world unit :=
  match entry_type p with
  | regular => CopyDirTo_file H target_folder p
  | directory => recurse (entry_path p) (target_folder // filename (entry_path p))
  end.

Fixpoint CopyDirTo (fuel : nat) (H : host) (source_folder target_folder : path)
  : M world unit :=
  match fuel with
  | O => fun _ => OutOfFuel
  | S fuel' =>
      let* dir_exists := fs_exists target_folder in
      (if negb dir_exists
       then (let* _ := CreateDirectory H target_folder in ret tt)
       else ret tt);;
      let* entries := directory_iterator source_folder in
      for_each entries (CopyDirTo_body (CopyDirTo fuel' H) H target_folder)
  end.

(** ** Environment::CopyToDirectory *)

Definition HRESULT := Z.
Definition S_OK : HRESULT := 0.
Definition E_FAIL : HRESULT := -2147467259. (* 0x80004005 *)

(** Does [s] have [pat] at its start? *)
Fixpoint starts_with (pat s : wstring) : bool :=
  match pat, s with
  | EmptyString, _ => true
  | String a pat', String b s' => Ascii.eqb a b && starts_with pat' s'
  | String _ _, EmptyString => false
  end.

(** [std::wstring::find]: the position of the first occurrence of [pat] in
    [s]; [None] is [npos]. *)
Fixpoint find (s pat : wstring) : option nat :=
  if starts_with pat s then Some O
  else match s with
       | EmptyString => None
       | String _ s' => option_map S (find s' pat)
       end.

Definition CopyToDirectory (fuel : nat) (H : host) (destination : wstring)
    (source : wstring) (cleanDest : bool) : M world HRESULT :=
  let tempPath := destination in
  if bool_decide (find tempPath source = Some O) then
    (* In the same directory, block. *)
    ret E_FAIL
  else
    let* clean :=
      (if cleanDest then fs_exists (to_path destination) else ret false) in
    (if clean then remove_all H (to_path destination) else ret tt);;
    CopyDirTo fuel H (to_path source) (to_path destination);;
    ret S_OK.

(** ** Sample worlds *)

Definition quiet : host := mkHost (fun _ => false) 100.

Definition tree (l : list (path * node)) : world := mkWorld (list_to_map l) [].

Definition disk0 : world :=
  tree [ ([], Directory 0);
         (["C:"], Directory 0);
         (["C:"; "src"], Directory 1);
         (["C:"; "src"; "f1"], File 10 "new f1");
         (["C:"; "src"; "sub"], Directory 1);
         (["C:"; "src"; "sub"; "f2"], File 10 "f2");
         (["C:"; "dst"], Directory 2);
         (["C:"; "dst"; "f1"], File 5 "old f1");
         (["C:"; "dst"; "stray"], File 3 "stray") ].

(** [disk0] with the destination's [f1] edited after the source's. *)
Definition disk1 : world :=
  tree [ ([], Directory 0);
         (["C:"], Directory 0);
         (["C:"; "src"], Directory 1);
         (["C:"; "src"; "f1"], File 10 "new f1");
         (["C:"; "dst"], Directory 2);
         (["C:"; "dst"; "f1"], File 20 "edited f1") ].

(** ** A kernel32 that behaves as documented

    [ExpandEnvironmentStringsW] returns the number of characters of the
    expansion, terminator included, and stores the expansion when the buffer
    can hold it. [GetEnvironmentVariableW], [GetCurrentDirectory] and
    [GetDllDirectory] return the length of the value, terminator excluded,
    when they have stored it, and the length needed, terminator included,
    when the buffer is too small. A variable that is not set makes
    [GetEnvironmentVariableW] return zero with [ERROR_ENVVAR_NOT_FOUND]. The
    values may change from one call to the next. *)

Definition terminated (v : wstring) : wstring := (v ++ String NUL "")%string.

Definition expansion_reply (v : wstring) (nSize : Z) : reply :=
  mkReply (size v + 1) None
          (if size v + 1 <=? nSize then terminated v else "").

Definition value_reply (v : wstring) (nSize : Z) : reply :=
  if size v + 1 <=? nSize then mkReply (size v) None (terminated v)
  else mkReply (size v + 1) None "".

Definition variable_reply (o : option wstring) (nSize : Z) : reply :=
  match o with
  | None => mkReply 0 (Some ERROR_ENVVAR_NOT_FOUND) ""
  | Some v => value_reply v nSize
  end.

Definition documented (expansion : nat -> wstring -> wstring)
    (variable : nat -> wstring -> option wstring)
    (current_directory dll_directory : nat -> wstring) : kernel32 :=
  mkKernel32 (fun t str => expansion_reply (expansion t str))
             (fun t name => variable_reply (variable t name))
             (fun t => value_reply (current_directory t))
             (fun t => value_reply (dll_directory t)).

(** The values a facility reports are the same from call [n] on. *)
Definition steady {A : Type} (f : nat -> A) (n : nat) : Prop :=
  forall t : nat, (n <= t)%nat -> f t = f n.

(** A kernel32 whose [GetEnvironmentVariableW] answers the probe with a
    length of 5 and then fails with [ERROR_NOT_ENOUGH_MEMORY]. *)
Definition failing_fill : kernel32 :=
  mkKernel32 (fun _ _ _ => mkReply 1 None "")
             (fun t _ _ => match t with
                           | O => mkReply 5 None ""
                           | _ => mkReply 0 (Some 8) ""
                           end)
             (fun _ _ => mkReply 1 None "")
             (fun _ _ => mkReply 0 None "").

Definition thread0 : thread := mkThread 0 0.

(** The variable holds "ab", then "abcd" from the second call on. *)
Definition growing (t : nat) (name : wstring) : option wstring :=
  match t with O => Some "ab" | _ => Some "abcd" end.

Definition growing_expansion (t : nat) (str : wstring) : wstring :=
  match t with O => "ab" | _ => "abcd" end.

(** The variable is not set; it is set to the empty string; the probe fails
    with [ERROR_ACCESS_DENIED]. *)
Definition unset_kernel : kernel32 :=
  documented (fun _ s => s) (fun _ _ => None) (fun _ => "C:\") (fun _ => "").

Definition empty_kernel : kernel32 :=
  documented (fun _ s => s) (fun _ _ => Some "") (fun _ => "C:\") (fun _ => "").

Definition failing_probe : kernel32 :=
  mkKernel32 (fun _ _ _ => mkReply 0 (Some 5) "")
             (fun _ _ _ => mkReply 0 (Some 5) "")
             (fun _ _ => mkReply 0 (Some 5) "")
             (fun _ _ => mkReply 0 (Some 5) "").

(** [GetDllDirectory] returns zero and leaves the last error alone: no
    directory is set. *)
Definition no_dll_directory : kernel32 :=
  mkKernel32 (fun _ _ _ => mkReply 1 None "")
             (fun _ _ _ => mkReply 0 (Some 203) "")
             (fun _ _ => mkReply 4 None "")
             (fun _ _ => mkReply 0 None "").

Definition steady_kernel : kernel32 :=
  documented growing_expansion growing (fun _ => "C:\") (fun _ => "").

(** The copy of [f1] is refused: the destination file is in use. *)
Definition locked : host :=
  mkHost (fun r => match r with
                   | ReqCopyFile _ dst => bool_decide (dst = ["C:"; "dst"; "f1"])
                   | _ => false
                   end) 100.

(** Every copy is refused. *)
Definition read_only : host :=
  mkHost (fun r => match r with ReqCopyFile _ _ => true | _ => false end) 100.

(** ** Further sample kernels, hosts and worlds *)

(** The directory is set when it is probed and cleared before it is read. *)
Definition cleared_dll_directory : kernel32 :=
  mkKernel32 (fun _ _ _ => mkReply 1 None "")
             (fun _ _ _ => mkReply 0 (Some 203) "")
             (fun _ _ => mkReply 4 None "")
             (fun t _ => match t with O => mkReply 8 None "" | _ => mkReply 0 None "" end).

(** The current directory and the DLL directory change after the first
    call; the DLL directory becomes longer, the current directory shorter. *)
Definition moving_directory (t : nat) : wstring :=
  match t with O => "C:\inetpub\wwwroot" | _ => "C:\site" end.

Definition moving_dll_directory (t : nat) : wstring :=
  match t with O => "" | _ => "C:\dlls" end.

Definition moving_kernel : kernel32 :=
  documented growing_expansion growing moving_directory moving_dll_directory.

(** The variable holds "ab" at the probe and is empty afterwards. *)
Definition emptied (t : nat) (name : wstring) : option wstring :=
  match t with O => Some "ab" | _ => Some "" end.

Definition emptied_kernel : kernel32 :=
  documented growing_expansion emptied moving_directory moving_dll_directory.

(** [disk0] once mirrored. *)
Definition disk2 : world :=
  tree [ ([], Directory 0);
         (["C:"], Directory 0);
         (["C:"; "src"], Directory 1);
         (["C:"; "src"; "f1"], File 10 "new f1");
         (["C:"; "src"; "sub"], Directory 1);
         (["C:"; "src"; "sub"; "f2"], File 10 "f2");
         (["C:"; "dst"], Directory 2);
         (["C:"; "dst"; "f1"], File 10 "new f1");
         (["C:"; "dst"; "stray"], File 3 "stray");
         (["C:"; "dst"; "sub"], Directory 100);
         (["C:"; "dst"; "sub"; "f2"], File 10 "f2") ].


(** An expansion that is one character longer at every call. *)
Fixpoint letters (n : nat) : wstring :=
  match n with
  | O => EmptyString
  | S n' => String "a" (letters n')
  end.

Definition lengthening_kernel : kernel32 :=
  documented (fun t _ => letters t) growing moving_directory moving_dll_directory.






(** A source folder [C:\a\b] inside the folder [C:\a] that it is mirrored
    into. The source holds [b\sub\x]; the destination holds a file [sub\x]
    of its own, which has no counterpart [C:\a\b\sub\x] in the source. *)
Definition over : world :=
  tree [ ([], Directory 0);
         (["C:"], Directory 0);
         (["C:"; "a"], Directory 1);
         (["C:"; "a"; "b"], Directory 1);
         (["C:"; "a"; "b"; "b"], Directory 1);
         (["C:"; "a"; "b"; "b"; "sub"], Directory 1);
         (["C:"; "a"; "b"; "b"; "sub"; "x"], File 10 "new x");
         (["C:"; "a"; "b"; "sub"], Directory 1);
         (["C:"; "a"; "sub"], Directory 2);
         (["C:"; "a"; "sub"; "x"], File 3 "stray") ].

(** ** Predicates used in the statements *)

(** The thread after a call that leaves the last error alone. *)
Definition next (st : thread) : thread := mkThread (S (ticks st)) (last_error st).


(** What the mirror step may change.

    [mirrored s t m m']: every entry of [m] is still in [m'], with the same
    file type, and an entry that differs is at a place under [t] whose
    counterpart under [s] exists in [m']. *)

Definition kept (m m' : gmap path node) : Prop :=
  forall k n, m !! k = Some n -> exists n', m' !! k = Some n' /\ status n' = status n.

Definition mirrored (s t : path) (m m' : gmap path node) : Prop :=
  kept m m'
  /\ forall k, m' !! k <> m !! k ->
               exists rel, k = t ++ rel /\ is_Some (m' !! (s ++ rel)).

(** The longest path of a file system. *)
Definition depth (m : gmap path node) : nat :=
  max_list (map (fun kv : path * node => length kv.1) (map_to_list m)).

(** Nothing lies more than [h] levels below [s]. *)
Definition bounded (m : gmap path node) (s : path) (h : nat) : Prop :=
  forall rel, is_Some (m !! (s ++ rel)) -> (length rel <= h)%nat.




(** Every entry but the root lies in a directory. *)
Definition well_formed (m : gmap path node) : Prop :=
  map_Forall (fun (k : path) (_ : node) => k = [] \/ is_dir m (parent_path k) = true) m.

Global Instance well_formed_dec m : Decision (well_formed m).
Proof. unfold well_formed. apply _. Defined.

(** ** Further predicates *)

(** What a loop over a directory query ends with: the buffer and the size
    that give the directory as it was at the last call. *)
Definition read_at (value : nat -> wstring) (st : thread)
    (o : outcome (wstring * DWORD * thread)) : Prop :=
  exists e r' st',
    o = Ok ((e, r'), st') /\ (ticks st < ticks st')%nat
    /\ 0 <= r' < 2 ^ 32
    /\ resize (Z.to_nat r') e = value (pred (ticks st')).

(** No entry is lost; a directory stays as it is; a regular file stays as it
    is or gives way to a regular file with a later last-write time. *)
Definition advanced (m m' : gmap path node) : Prop :=
  forall k n, m !! k = Some n ->
    m' !! k = Some n
    \/ exists tm c, m' !! k = Some (File tm c)
                    /\ status n = regular /\ write_time n < tm.

(** Every regular file of [m'] has the time and bytes of a regular file of
    [m], and every directory of [m'] was in [m] or is new and stamped by the
    host. *)
Definition sourced (H : host) (m m' : gmap path node) : Prop :=
  forall k n', m' !! k = Some n' ->
    match n' with
    | File tm c => exists k0, m !! k0 = Some (File tm c)
    | Directory tm => m !! k = Some (Directory tm) \/ (tm = now H /\ m !! k = None)
    end.

(** Under [t], every place is as it was, or holds what its counterpart under
    [s] held: the time and bytes of a regular file, or a new directory where
    there was none and the counterpart is a directory. *)
Definition copied (H : host) (s t : path) (m m' : gmap path node) : Prop :=
  forall rel,
    m' !! (t ++ rel) = m !! (t ++ rel)
    \/ match m !! (s ++ rel) with
       | Some (File tm c) => m' !! (t ++ rel) = Some (File tm c)
       | Some (Directory _) =>
           m !! (t ++ rel) = None /\ m' !! (t ++ rel) = Some (Directory (now H))
       | None => False
       end.


(** [n'] stands for [n] in a destination that needs no copy: a regular file
    [n] has a counterpart that is not older. *)
Definition not_older (n n' : node) : bool :=
  match status n with
  | regular => write_time n <=? write_time n'
  | directory => true
  end.

(** Every entry under [s] has a counterpart under [t], not older when the
    entry is a regular file. *)
Definition up_to_date (m : gmap path node) (s t : path) : Prop :=
  map_Forall (fun (k : path) (n : node) =>
                s `prefix_of` k ->
                from_option (not_older n) false (m !! (t ++ drop (length s) k)) = true) m.

Global Instance up_to_date_dec m s t : Decision (up_to_date m s t).
Proof. unfold up_to_date. apply _. Defined.

(** What a mirror step adds to the log, against what it does to the files:
    records of two kinds only, with a "WOW" among them exactly when some
    regular file is not as it was. *)
Definition logged (w w' : world) : Prop :=
  exists l,
    log w' = log w ++ l
    /\ Forall (fun r => r = LogInfo "WOW" \/ r = LogLastError) l
    /\ (LogInfo "WOW" ∈ l
        <-> exists k tm c, files w' !! k = Some (File tm c)
                           /\ files w !! k <> Some (File tm c)).

(** ** Counting the entries of a tree *)

Global Instance file_type_eq_dec : EqDecision file_type.
Proof. solve_decision. Defined.

Global Instance log_record_eq_dec : EqDecision log_record.
Proof. unfold wstring. solve_decision. Defined.

(** The number of entries of [m] at or below [s] that satisfy [Q]. *)
Definition count_below (Q : path * node -> Prop) `{!forall kv, Decision (Q kv)}
    (m : gmap path node) (s : path) : nat :=
  length (map_to_list (filter (fun kv : path * node => s `prefix_of` kv.1 /\ Q kv) m)).

(** The regular files at or below [s]. *)
Definition regular_below (m : gmap path node) (s : path) : nat :=
  count_below (fun kv => status kv.2 = regular) m s.


(** The records of failed copies in a piece of log. *)
Definition failures (l : list log_record) : nat :=
  length (filter (fun r => r = LogLastError) l).

(** Every entry strictly below [s] lies in a directory. *)
Definition rooted (m : gmap path node) (s : path) : Prop :=
  forall rel x, is_Some (m !! (s ++ rel ++ [x])) -> is_dir m (s ++ rel) = true.


(** No entry is lost or made older: a directory is still a directory; a
    regular file is as it was or has given way to a regular file with a
    later last-write time. The last-write times of directories are left
    out: the system moves them when entries are made in a directory. *)
Definition not_aged (m m' : gmap path node) : Prop :=
  forall k n, m !! k = Some n ->
    match n with
    | Directory _ => is_dir m' k = true
    | File tm c =>
        m' !! k = Some (File tm c)
        \/ exists tm' c', m' !! k = Some (File tm' c') /\ tm < tm'
    end.



Ltac case_matches :=
  repeat match goal with
         | |- context [match ?x with _ => _ end] =>
             lazymatch x with
             | context [match _ with _ => _ end] => fail
             | _ => destruct x eqn:?; cbn beta iota
             end
         end.

(** * Properties *)

(** ** Wide strings and DWORDs *)

Lemma wrap32_range z : 0 <= wrap32 z < 2 ^ 32.
Proof. unfold wrap32. apply Z.mod_pos_bound. lia. Qed.

Lemma wrap32_small z : 0 <= z < 2 ^ 32 -> wrap32 z = z.
Proof. intros Hz. unfold wrap32. now apply Z.mod_small. Qed.

Lemma length_resize n s : String.length (resize n s) = n.
Proof.
  revert s. induction n as [|n IH]; intros s; simpl; [reflexivity|].
  destruct s; simpl; now rewrite IH.
Qed.

Lemma size_resize n s : size (resize n s) = Z.of_nat n.
Proof. unfold size. now rewrite length_resize. Qed.

Lemma resize_length s : resize (String.length s) s = s.
Proof. induction s as [|c s IH]; simpl; [reflexivity|]. now rewrite IH. Qed.

Lemma length_store out buf : String.length (store out buf) = String.length buf.
Proof.
  revert buf. induction out as [|c out IH]; intros [|b buf]; simpl; try reflexivity.
  now rewrite IH.
Qed.

Lemma size_store out buf : size (store out buf) = size buf.
Proof. unfold size. now rewrite length_store. Qed.

Lemma substring_all n s : (String.length s <= n)%nat -> String.substring 0 n s = s.
Proof.
  revert n. induction s as [|c s IH]; intros [|n] Hn; simpl in *; try reflexivity; try lia.
  rewrite IH by lia. reflexivity.
Qed.

Lemma length_terminated v : String.length (terminated v) = S (String.length v).
Proof.
  unfold terminated. induction v as [|c v IH]; simpl; [reflexivity|].
  change (String.length (v ++ String NUL "")%string = S (String.length v)) in IH.
  now rewrite IH.
Qed.

(** A buffer of exactly the needed length, once filled and trimmed of its
    last character, is the value. *)
Lemma resize_store_terminated v buf :
  String.length buf = S (String.length v) ->
  resize (String.length v) (store (terminated v) buf) = v.
Proof.
  revert buf. unfold terminated.
  induction v as [|c v IH]; intros [|b buf] Hlen; simpl in *; try discriminate.
  - reflexivity.
  - f_equal. apply IH. lia.
Qed.

(** ** The queries under any kernel32 *)

Lemma GetEnvironmentVariableValue_loop_leaves fuel K str buf r st e r' st' :
  GetEnvironmentVariableValue_loop fuel K str buf r st = Ok (Some (e, r'), st') ->
  1 <= r' < 2 ^ 32.
Proof.
  revert buf r st. induction fuel as [|fuel IH]; intros buf r st; simpl; [discriminate|].
  unfold bind, GetEnvironmentVariableW, call, GetLastError, ret, throw; simpl.
  set (rep := k_GetEnvironmentVariableW K (ticks st) str r).
  pose proof (wrap32_range (r_ret rep)) as Hrange.
  destruct (wrap32 (r_ret rep) =? 0) eqn:Hz.
  - destruct (_ =? ERROR_ENVVAR_NOT_FOUND); discriminate.
  - apply Z.eqb_neq in Hz.
    destruct (negb _).
    + apply IH.
    + intros [= _ <- _]. lia.
Qed.

(** C3. [GetEnvironmentVariableValue] never returns the empty string: a
    probe that reports the variable as not found, or a required size of
    exactly 1, gives [std::nullopt], and any other failure of the probe is
    thrown as a [std::system_error] with the last-error code. *)
Theorem GetEnvironmentVariableValue_never_empty (fuel : nat) (K : kernel32)
    (str : wstring) (st : thread) :
  let r := k_GetEnvironmentVariableW K (ticks st) str 0 in
  let st1 := after_call r st in
  (forall st', GetEnvironmentVariableValue fuel K str st <> Ok (Some EmptyString, st'))
  /\ (wrap32 (r_ret r) = 0 -> last_error st1 = ERROR_ENVVAR_NOT_FOUND ->
      GetEnvironmentVariableValue fuel K str st = Ok (None, st1))
  /\ (wrap32 (r_ret r) = 1 ->
      GetEnvironmentVariableValue fuel K str st = Ok (None, st1))
  /\ (wrap32 (r_ret r) = 0 -> last_error st1 <> ERROR_ENVVAR_NOT_FOUND ->
      GetEnvironmentVariableValue fuel K str st
      = Throw (system_error (last_error st1) "GetEnvironmentVariableW")).
Proof.
  intros r st1.
  unfold GetEnvironmentVariableValue, bind, GetEnvironmentVariableW, call,
    GetLastError, ret, throw; cbn beta iota.
  fold r. fold st1.
  split; [|split; [|split]].
  - intros st'.
    destruct (wrap32 (r_ret r) =? 0).
    { cbn beta. destruct (_ =? ERROR_ENVVAR_NOT_FOUND); discriminate. }
    destruct (wrap32 (r_ret r) =? 1); [discriminate|]. cbn beta.
    destruct (GetEnvironmentVariableValue_loop fuel K str "" (wrap32 (r_ret r)) st1)
      as [[[[e r']|] st2]| |] eqn:Hloop; try discriminate.
    apply GetEnvironmentVariableValue_loop_leaves in Hloop.
    intros [= Hres _].
    apply (f_equal String.length) in Hres. rewrite length_resize in Hres.
    simpl in Hres. lia.
  - intros -> Hnf. rewrite Z.eqb_refl. cbn beta iota. now rewrite Hnf.
  - intros ->. reflexivity.
  - intros -> Hne. rewrite Z.eqb_refl. cbn beta iota.
    apply Z.eqb_neq in Hne. now rewrite Hne.
Qed.

Lemma GetEnvironmentVariableValue_never_empty_witness :
  GetEnvironmentVariableValue 3 steady_kernel "X" thread0
    <> Ok (Some EmptyString, mkThread 3 0)
  /\ GetEnvironmentVariableValue 3 unset_kernel "X" thread0
     = Ok (None, mkThread 1 ERROR_ENVVAR_NOT_FOUND)
  /\ GetEnvironmentVariableValue 3 empty_kernel "X" thread0
     = Ok (None, mkThread 1 0)
  /\ GetEnvironmentVariableValue 3 failing_probe "X" thread0
     = Throw (system_error 5 "GetEnvironmentVariableW").
Proof.
  split; [|split; [|split]].
  - apply (proj1 (GetEnvironmentVariableValue_never_empty 3 steady_kernel "X" thread0)).
  - apply (proj1 (proj2
             (GetEnvironmentVariableValue_never_empty 3 unset_kernel "X" thread0)));
      reflexivity.
  - apply (proj1 (proj2 (proj2
             (GetEnvironmentVariableValue_never_empty 3 empty_kernel "X" thread0))));
      reflexivity.
  - apply (proj2 (proj2 (proj2
             (GetEnvironmentVariableValue_never_empty 3 failing_probe "X" thread0))));
      [reflexivity | vm_compute; discriminate].
Defined.

(** C5, at the failing input. When the fill call of
    [GetEnvironmentVariableValue] fails, the error thrown carries the last-error
    code but names [ExpandEnvironmentStringsW], whereas the facility that
    failed is [GetEnvironmentVariableW], the name under which a failing probe
    of the same function is reported. *)
Theorem GetEnvironmentVariableValue_fill_failure_misnamed :
  GetEnvironmentVariableValue 1 failing_fill "X" thread0
    = Throw (system_error 8 "ExpandEnvironmentStringsW")
  /\ GetEnvironmentVariableValue 1 failing_probe "X" thread0
     = Throw (system_error 5 "GetEnvironmentVariableW").
Proof. split; reflexivity. Qed.

(** C6. In [GetDllDirectoryValue] the last error is reset before the probe.
    When the probe returns zero and the last error is still [ERROR_SUCCESS],
    the result is the empty string; when the probe returns zero and the
    facility has set the last error, a [std::system_error] with that code is
    thrown. Zero alone is not a failure. *)
Theorem GetDllDirectoryValue_zero_probe (fuel : nat) (K : kernel32) (st : thread) :
  let r := k_GetDllDirectory K (ticks st) 0 in
  let st1 := after_call r (mkThread (ticks st) ERROR_SUCCESS) in
  wrap32 (r_ret r) = 0 ->
  (last_error st1 = ERROR_SUCCESS ->
   GetDllDirectoryValue fuel K st = Ok (EmptyString, st1))
  /\ (last_error st1 <> ERROR_SUCCESS ->
      GetDllDirectoryValue fuel K st
      = Throw (system_error (last_error st1) "GetDllDirectory")).
Proof.
  intros r st1 Hzero.
  unfold GetDllDirectoryValue, bind, SetLastError, GetDllDirectory, call,
    GetLastError, ret, throw; cbn beta iota.
  change (ticks {| ticks := ticks st; last_error := ERROR_SUCCESS |}) with (ticks st).
  fold r. fold st1. rewrite Hzero, Z.eqb_refl. cbn beta iota.
  split.
  - intros ->. reflexivity.
  - intros Hne. apply Z.eqb_neq in Hne. now rewrite Hne.
Qed.

Lemma GetDllDirectoryValue_zero_probe_witness :
  GetDllDirectoryValue 3 no_dll_directory (mkThread 0 203)
    = Ok (EmptyString, mkThread 1 ERROR_SUCCESS)
  /\ GetDllDirectoryValue 3 failing_probe (mkThread 0 0)
     = Throw (system_error 5 "GetDllDirectory").
Proof.
  split.
  - apply (proj1 (GetDllDirectoryValue_zero_probe 3 no_dll_directory (mkThread 0 203)
                    eq_refl)); reflexivity.
  - apply (proj2 (GetDllDirectoryValue_zero_probe 3 failing_probe (mkThread 0 0)
                    eq_refl)); vm_compute; discriminate.
Defined.

(** ** The retry loops under a kernel32 that behaves as documented *)

Section Documented.

Variable expansion : nat -> wstring -> wstring.
Variable variable : nat -> wstring -> option wstring.
Variables current_directory dll_directory : nat -> wstring.

Let K := documented expansion variable current_directory dll_directory.

Lemma size_nonneg s : 0 <= size s.
Proof. unfold size. lia. Qed.

Lemma stored_terminated v r :
  size v + 1 <= r ->
  String.substring 0 (Z.to_nat r) (terminated v) = terminated v.
Proof.
  intros Hr. apply substring_all. rewrite length_terminated. unfold size in Hr. lia.
Qed.

(** One turn of the loop of [ExpandEnvironmentVariables]. *)
Lemma ExpandEnvironmentVariables_loop_turn fuel str buf r st :
  0 <= r < 2 ^ 32 ->
  size (expansion (ticks st) str) + 1 < 2 ^ 32 ->
  ExpandEnvironmentVariables_loop (S fuel) K str buf r st =
  let v := expansion (ticks st) str in
  if r =? size v + 1
  then Ok ((store (terminated v) (resize (Z.to_nat r) buf), size v + 1), next st)
  else ExpandEnvironmentVariables_loop fuel K str
         (store (String.substring 0 (Z.to_nat r)
                   (if size v + 1 <=? r then terminated v else ""))
                (resize (Z.to_nat r) buf))
         (size v + 1) (next st).
Proof.
  intros Hr Hv. cbn zeta.
  pose proof (size_nonneg (expansion (ticks st) str)) as Hnn.
  cbn [ExpandEnvironmentVariables_loop].
  unfold bind, ExpandEnvironmentStringsW, call, GetLastError, ret, throw.
  cbn [K documented k_ExpandEnvironmentStringsW expansion_reply r_ret r_out
       option_map data].
  rewrite wrap32_small by lia.
  destruct (size (expansion (ticks st) str) + 1 =? 0) eqn:Hz; [lia|].
  rewrite size_store, size_resize, Z2Nat.id by lia.
  change (after_call (expansion_reply (expansion (ticks st) str) r) st) with (next st).
  destruct (r =? size (expansion (ticks st) str) + 1) eqn:Hex; cbn [negb].
  - apply Z.eqb_eq in Hex.
    destruct (size (expansion (ticks st) str) + 1 <=? r) eqn:Hle; [|lia].
    rewrite stored_terminated by lia. reflexivity.
  - reflexivity.
Qed.

Lemma steady_later {A : Type} (f : nat -> A) (n m : nat) :
  steady f n -> (n <= m)%nat -> steady f m.
Proof.
  intros Hs Hnm t Ht. rewrite (Hs t), (Hs m); [reflexivity | lia | lia].
Qed.



(** One turn of the loop of [GetEnvironmentVariableValue]. *)
Lemma GetEnvironmentVariableValue_loop_turn fuel str buf r st :
  0 < r < 2 ^ 32 ->
  (forall v, variable (ticks st) str = Some v -> size v + 1 < 2 ^ 32) ->
  GetEnvironmentVariableValue_loop (S fuel) K str buf r st =
  match variable (ticks st) str with
  | None => Ok (None, mkThread (S (ticks st)) ERROR_ENVVAR_NOT_FOUND)
  | Some v =>
      if size v + 1 <=? r then
        if size v =? 0 then
          if last_error st =? ERROR_ENVVAR_NOT_FOUND then Ok (None, next st)
          else Throw (system_error (last_error st) "ExpandEnvironmentStringsW")
        else if r =? size v + 1 then
          Ok (Some (store (terminated v) (resize (Z.to_nat r) buf), size v), next st)
        else
          GetEnvironmentVariableValue_loop fuel K str
            (store (terminated v) (resize (Z.to_nat r) buf)) (size v) (next st)
      else
        GetEnvironmentVariableValue_loop fuel K str (resize (Z.to_nat r) buf)
          (size v + 1) (next st)
  end.
Proof.
  intros Hr Hv.
  cbn [GetEnvironmentVariableValue_loop].
  unfold bind, GetEnvironmentVariableW, call, GetLastError, ret, throw.
  cbn [K documented k_GetEnvironmentVariableW].
  destruct (variable (ticks st) str) as [v|]; cbn [variable_reply].
  2:{ reflexivity. }
  specialize (Hv v eq_refl). pose proof (size_nonneg v) as Hnn.
  unfold value_reply.
  destruct (size v + 1 <=? r) eqn:Hfit; cbn [r_ret r_out r_err option_map data].
  - apply Z.leb_le in Hfit.
    rewrite stored_terminated by lia.
    rewrite wrap32_small by lia.
    change (after_call {| r_ret := size v; r_err := None; r_out := terminated v |} st)
      with (next st).
    destruct (size v =? 0) eqn:Hz.
    { cbn [next last_error]. destruct (last_error st =? _); reflexivity. }
    rewrite size_store, size_resize, Z2Nat.id by lia.
    rewrite wrap32_small by lia.
    destruct (r =? size v + 1); reflexivity.
  - apply Z.leb_gt in Hfit.
    rewrite wrap32_small by lia.
    change (after_call {| r_ret := size v + 1; r_err := None; r_out := "" |} st)
      with (next st).
    destruct (size v + 1 =? 0) eqn:Hz; [lia|].
    assert (Hstore : forall b, store (String.substring 0 (Z.to_nat r) "") b = b).
    { intros b. destruct (Z.to_nat r); destruct b; reflexivity. }
    rewrite Hstore, size_resize, Z2Nat.id by lia.
    assert (Hnot : (r =? wrap32 (size v + 1 + 1)) = false).
    { apply Z.eqb_neq. unfold wrap32.
      destruct (Z.eq_dec (size v + 1 + 1) (2 ^ 32)) as [->|Hne].
      - rewrite Z.mod_same by lia. lia.
      - rewrite Z.mod_small by lia. lia. }
    rewrite Hnot. reflexivity.
Qed.



Section Variable_loop.

Variable str : wstring.
Hypothesis Hrange : forall t v, variable t str = Some v -> size v + 1 < 2 ^ 32.

Let loop fuel buf r st := GetEnvironmentVariableValue_loop fuel K str buf r st.




End Variable_loop.

End Documented.

(** ** The loop of [GetEnvironmentVariableValue], the variable always set *)






(** ** The guard of [CopyToDirectory] *)

Lemma starts_with_spec pat s :
  starts_with pat s = true <-> exists rest, s = (pat ++ rest)%string.
Proof.
  revert s. induction pat as [|a pat IH]; intros s; simpl.
  - split; [intros _; now exists s | reflexivity].
  - destruct s as [|b s].
    + split; [discriminate | intros [rest Hrest]; discriminate].
    + rewrite andb_true_iff, IH. split.
      * intros [Hab [rest ->]]. apply Ascii.eqb_eq in Hab as ->. now exists rest.
      * intros [rest [= -> ->]]. split; [apply Ascii.eqb_refl | now exists rest].
Qed.

Lemma find_zero s pat : find s pat = Some O <-> starts_with pat s = true.
Proof.
  destruct s as [|c s]; simpl.
  - destruct (starts_with pat ""); split; congruence.
  - destruct (starts_with pat (String c s)); [tauto|].
    destruct (find s pat); simpl; split; congruence.
Qed.

(** C2. When the destination string begins with the source string,
    [CopyToDirectory] returns [E_FAIL] and leaves the world as it was: nothing
    is removed, created, copied or logged. When it does not, the call goes on
    to the clean step and the mirror step, and can only return [S_OK]. *)
Theorem CopyToDirectory_guard (fuel : nat) (H : host) (destination source : wstring)
    (cleanDest : bool) (w : world) :
  ((exists rest, destination = (source ++ rest)%string) ->
   CopyToDirectory fuel H destination source cleanDest w = Ok (E_FAIL, w))
  /\ (~ (exists rest, destination = (source ++ rest)%string) ->
      CopyToDirectory fuel H destination source cleanDest w
      = (let* clean :=
           (if cleanDest then fs_exists (to_path destination) else ret false) in
         (if clean then remove_all H (to_path destination) else ret tt);;
         CopyDirTo fuel H (to_path source) (to_path destination);;
         ret S_OK) w
      /\ forall hr w',
          CopyToDirectory fuel H destination source cleanDest w = Ok (hr, w') ->
          hr = S_OK).
Proof.
  unfold CopyToDirectory. split.
  - intros Hbegins. apply starts_with_spec, find_zero in Hbegins.
    rewrite bool_decide_eq_true_2 by exact Hbegins. reflexivity.
  - intros Hnot.
    rewrite bool_decide_eq_false_2.
    2:{ intros Hfind. apply Hnot. now apply starts_with_spec, find_zero. }
    split; [reflexivity|].
    intros hr w'. unfold bind, ret.
    destruct (if cleanDest then _ else _) as [[clean w1]| |]; try discriminate.
    destruct (if clean then _ else _) as [[[] w2]| |]; try discriminate.
    destruct (CopyDirTo fuel H _ _ w2) as [[[] w3]| |]; try discriminate.
    now intros [= <- _].
Qed.

Lemma CopyToDirectory_guard_witness :
  CopyToDirectory 5 quiet "C:\src\shadow" "C:\src" true disk0 = Ok (E_FAIL, disk0)
  /\ forall hr w',
      CopyToDirectory 5 quiet "C:\dst" "C:\src" true disk0 = Ok (hr, w') -> hr = S_OK.
Proof.
  split.
  - apply (proj1 (CopyToDirectory_guard 5 quiet "C:\src\shadow" "C:\src" true disk0)).
    exists "\shadow". reflexivity.
  - apply (proj2 (CopyToDirectory_guard 5 quiet "C:\dst" "C:\src" true disk0)).
    intros [rest Hrest]. discriminate Hrest.
Defined.

(** C9. The guard compares strings, not paths: with source [C:\app] and
    destination [C:\apple], a sibling directory that is neither the source
    nor inside it, [CopyToDirectory] returns [E_FAIL] and touches nothing. *)
Theorem CopyToDirectory_guard_blocks_sibling :
  exists source destination : wstring,
    to_path destination <> to_path source
    /\ ~ to_path source `prefix_of` to_path destination
    /\ forall fuel H cleanDest w,
        CopyToDirectory fuel H destination source cleanDest w = Ok (E_FAIL, w).
Proof.
  exists "C:\app", "C:\apple". split; [|split].
  - vm_compute. discriminate.
  - change (to_path "C:\app") with ["C:"; "app"].
    change (to_path "C:\apple") with ["C:"; "apple"].
    intros [k Hk]. discriminate Hk.
  - intros fuel H cleanDest w. reflexivity.
Qed.

(** ** The loop body for a regular file *)

Lemma present_Some (m : gmap path node) p n : m !! p = Some n -> present m p = true.
Proof. unfold present. now intros ->. Qed.

Lemma present_None (m : gmap path node) p : m !! p = None -> present m p = false.
Proof. unfold present. now intros ->. Qed.

(** The branch for a regular file skips a destination that is not older. *)
Lemma CopyDirTo_file_skips (H : host) (target_folder : path) (p : directory_entry)
    (n0 n : node) (w : world) :
  files w !! entry_path p = Some n0 ->
  files w !! (target_folder // filename (entry_path p)) = Some n ->
  write_time n0 <= write_time n ->
  CopyDirTo_file H target_folder p w = Ok (tt, w).
Proof.
  intros Hsrc Hd Hle. unfold CopyDirTo_file.
  unfold bind, fs_exists, last_write_time, ret.
  rewrite (present_Some _ _ _ Hd), Hsrc, Hd.
  apply Z.leb_le in Hle. now rewrite Hle.
Qed.

(** Otherwise it calls [CopyFile] and logs the outcome. *)
Lemma CopyDirTo_file_copies (H : host) (target_folder : path) (p : directory_entry)
    (n0 : node) (w : world) :
  files w !! entry_path p = Some n0 ->
  let d := target_folder // filename (entry_path p) in
  (files w !! d = None
   \/ exists n, files w !! d = Some n /\ write_time n < write_time n0) ->
  CopyDirTo_file H target_folder p w
  = (let* res := CopyFile H (entry_path p) d false in
     if res then LOG_INFO "WOW" else LOG_LAST_ERROR) w.
Proof.
  intros Hsrc d Hdue. unfold CopyDirTo_file. fold d.
  unfold bind at 1, fs_exists. destruct Hdue as [Hd | (n & Hd & Hlt)].
  - rewrite (present_None _ _ Hd). reflexivity.
  - rewrite (present_Some _ _ _ Hd).
    unfold bind at 1. unfold bind at 1, last_write_time at 1. rewrite Hsrc.
    unfold bind at 1, last_write_time. rewrite Hd. cbn [ret].
    apply Z.leb_gt in Hlt. now rewrite Hlt.
Qed.

(** [CopyFile] of a regular file, by cases. *)
Lemma CopyFile_regular (H : host) (src dst : path) (t : Z) (c : string) (w : world) :
  files w !! src = Some (File t c) ->
  CopyFile H src dst false w
  = if CopyFile_permitted H (files w) src dst false
    then Ok (true, mkWorld (<[dst := File t c]> (files w)) (log w))
    else Ok (false, w).
Proof. intros Hsrc. unfold CopyFile. now rewrite Hsrc. Qed.

(** A copy that is due and fails leaves one record in the log. *)
Lemma CopyDirTo_file_fails (H : host) (target_folder : path) (p : directory_entry)
    (t : Z) (c : string) (w : world) :
  files w !! entry_path p = Some (File t c) ->
  let d := target_folder // filename (entry_path p) in
  (files w !! d = None \/ exists n, files w !! d = Some n /\ write_time n < t) ->
  CopyFile_permitted H (files w) (entry_path p) d false = false ->
  CopyDirTo_file H target_folder p w
  = Ok (tt, mkWorld (files w) (log w ++ [LogLastError])).
Proof.
  intros Hsrc d Hdue Hfail.
  rewrite (CopyDirTo_file_copies H target_folder p _ w Hsrc Hdue).
  unfold bind. fold d. rewrite (CopyFile_regular H _ d t c w Hsrc), Hfail. reflexivity.
Qed.

(** C1, as the code has it. For a regular file of the source, with [d] the
    path of the same name under the target folder: when [d] exists and the
    source's last-write time is less than or equal to that of [d], the file
    is skipped and nothing changes; otherwise, also when [d] does not exist,
    [CopyFile] is called, and when it succeeds [d] holds the source's bytes
    and last-write time (when it fails, the failure is logged and the files
    are as they were). *)
Theorem CopyDirTo_file_rule (H : host) (target_folder : path) (p : directory_entry)
    (t : Z) (c : string) (w : world) :
  files w !! entry_path p = Some (File t c) ->
  let d := target_folder // filename (entry_path p) in
  (forall n, files w !! d = Some n -> t <= write_time n ->
             CopyDirTo_file H target_folder p w = Ok (tt, w))
  /\ (files w !! d = None \/ (exists n, files w !! d = Some n /\ write_time n < t) ->
      CopyDirTo_file H target_folder p w
      = if CopyFile_permitted H (files w) (entry_path p) d false
        then Ok (tt, mkWorld (<[d := File t c]> (files w)) (log w ++ [LogInfo "WOW"]))
        else Ok (tt, mkWorld (files w) (log w ++ [LogLastError]))).
Proof.
  intros Hsrc d. split.
  - intros n Hd Hle. now apply (CopyDirTo_file_skips H target_folder p (File t c) n).
  - intros Hdue.
    rewrite (CopyDirTo_file_copies H target_folder p (File t c) w Hsrc Hdue).
    fold d. unfold bind. rewrite (CopyFile_regular H _ d t c w Hsrc).
    destruct (CopyFile_permitted H (files w) (entry_path p) d false); reflexivity.
Qed.

Lemma CopyDirTo_file_rule_witness :
  CopyDirTo_file quiet ["C:"; "dst"] (mkEntry ["C:"; "src"; "f1"] regular) disk0
  = Ok (tt, mkWorld (<[ ["C:"; "dst"; "f1"] := File 10 "new f1" ]> (files disk0))
                    [LogInfo "WOW"]).
Proof.
  apply (proj2 (CopyDirTo_file_rule quiet ["C:"; "dst"]
                  (mkEntry ["C:"; "src"; "f1"] regular) 10 "new f1" disk0 eq_refl)).
  right. exists (File 5 "old f1"). split; [reflexivity | cbn; lia].
Defined.

(** C1, as the claim has it, fails. In [disk0] the destination file exists
    with a last-write time (5) less than or equal to that of the source file
    (10): the claim has it skipped, the code overwrites it. In [disk1] the
    destination file is the later one (20 against 10): the claim has it
    copied, the code skips it. And where the destination file does not exist,
    the claim has the bytes copied, whereas the copy can fail: on a host that
    refuses the copies, [dst\sub] is created and [dst\sub\f2] still does
    not exist afterwards. *)
Lemma CopyDirTo_file_rule_as_claimed_fails :
  (files disk0 !! ["C:"; "src"; "f1"] = Some (File 10 "new f1")
   /\ files disk0 !! ["C:"; "dst"; "f1"] = Some (File 5 "old f1")
   /\ 5 <= 10
   /\ CopyDirTo_file quiet ["C:"; "dst"] (mkEntry ["C:"; "src"; "f1"] regular) disk0
      <> Ok (tt, disk0)
   /\ exists w',
       CopyToDirectory 3 quiet "C:\dst" "C:\src" false disk0 = Ok (S_OK, w')
       /\ files w' !! ["C:"; "dst"; "f1"] = Some (File 10 "new f1"))
  /\ (files disk1 !! ["C:"; "src"; "f1"] = Some (File 10 "new f1")
      /\ files disk1 !! ["C:"; "dst"; "f1"] = Some (File 20 "edited f1")
      /\ ~ 20 <= 10
      /\ CopyDirTo_file quiet ["C:"; "dst"] (mkEntry ["C:"; "src"; "f1"] regular) disk1
         = Ok (tt, disk1))
  /\ (files disk0 !! ["C:"; "src"; "sub"; "f2"] = Some (File 10 "f2")
      /\ files disk0 !! ["C:"; "dst"; "sub"; "f2"] = None
      /\ exists w',
          CopyToDirectory 3 read_only "C:\dst" "C:\src" false disk0 = Ok (S_OK, w')
          /\ files w' !! ["C:"; "dst"; "sub"] = Some (Directory 100)
          /\ files w' !! ["C:"; "dst"; "sub"; "f2"] = None).
Proof.
  split; [|split].
  - split; [reflexivity|]. split; [reflexivity|]. split; [lia|]. split.
    + intros Heq.
      assert (Hlog : forall o : outcome (unit * world),
                 o = Ok (tt, disk0) ->
                 match o with Ok (_, w') => log w' | _ => [] end = []).
      { now intros o ->. }
      apply Hlog in Heq. vm_compute in Heq. discriminate Heq.
    + eexists. split; [vm_compute; reflexivity|]. vm_compute. reflexivity.
  - split; [reflexivity|]. split; [reflexivity|]. split; [lia|].
    reflexivity.
  - split; [reflexivity|]. split; [reflexivity|].
    eexists. split; [vm_compute; reflexivity|]. split; vm_compute; reflexivity.
Qed.

(** ** Paths *)

Lemma parent_path_snoc (p : path) n : parent_path (p ++ [n]) = p.
Proof. unfold parent_path. apply removelast_last. Qed.

Lemma filename_snoc (p : path) n : filename (p ++ [n]) = [n].
Proof. unfold filename. now rewrite last_snoc. Qed.

Lemma child_of_spec (p k : path) : child_of p k <-> exists n, k = p ++ [n].
Proof.
  unfold child_of. split.
  - intros [Hlen [r ->]]. rewrite length_app in Hlen.
    destruct r as [|n [|? ?]]; simpl in Hlen; try lia. now exists n.
  - intros [n ->]. rewrite length_app. simpl. split; [lia | now exists [n]].
Qed.

Lemma children_spec (m : gmap path node) (p : path) (e : directory_entry) :
  e ∈ children m p <->
  exists n nd, m !! (p ++ [n]) = Some nd /\ e = mkEntry (p ++ [n]) (status nd).
Proof.
  unfold children. rewrite list_elem_of_omap. split.
  - intros [[k nd] [Hin Hsome]]. simpl in Hsome.
    apply elem_of_map_to_list in Hin.
    destruct (decide (child_of p k)) as [Hc|]; [|discriminate].
    apply child_of_spec in Hc as [n ->]. injection Hsome as <-. eauto.
  - intros (n & nd & Hlook & ->). exists (p ++ [n], nd). split.
    + now apply elem_of_map_to_list.
    + simpl. rewrite decide_True; [reflexivity|]. apply child_of_spec. eauto.
Qed.

Lemma lookup_remove_all (m : gmap path node) (t k : path) :
  ~ t `prefix_of` k ->
  filter (fun kv : path * node => ~ t `prefix_of` kv.1) m !! k = m !! k.
Proof.
  intros Hout. destruct (m !! k) as [n|] eqn:Hk.
  - apply map_lookup_filter_Some. split; [exact Hk | exact Hout].
  - apply map_lookup_filter_None. left. exact Hk.
Qed.

(** ** Sequencing *)

Lemma bind_Ok {S A B : Type} (m : M S A) (k : A -> M S B) s b s' :
  bind m k s = Ok (b, s') ->
  exists a s1, m s = Ok (a, s1) /\ k a s1 = Ok (b, s').
Proof.
  unfold bind. destruct (m s) as [[a s1]| |]; try discriminate. eauto.
Qed.

Lemma for_each_cons_Ok {S A : Type} (x : A) l (body : A -> M S unit) s u s' :
  for_each (x :: l) body s = Ok (u, s') ->
  exists s1, body x s = Ok (tt, s1) /\ for_each l body s1 = Ok (u, s').
Proof.
  simpl. intros Hb. apply bind_Ok in Hb as ([] & s1 & Hx & Hl). eauto.
Qed.

(** ** What the mirror step may change *)

Lemma kept_refl m : kept m m.
Proof. intros k n Hk. eauto. Qed.

Lemma kept_trans m1 m2 m3 : kept m1 m2 -> kept m2 m3 -> kept m1 m3.
Proof.
  intros H12 H23 k n Hk.
  destruct (H12 k n Hk) as (n2 & Hk2 & Hs2).
  destruct (H23 k n2 Hk2) as (n3 & Hk3 & Hs3).
  exists n3. split; [exact Hk3 | congruence].
Qed.

Lemma kept_is_Some m m' k : kept m m' -> is_Some (m !! k) -> is_Some (m' !! k).
Proof. intros Hk [n Hn]. destruct (Hk k n Hn) as (n' & Hn' & _). eauto. Qed.

Lemma kept_is_dir m m' k : kept m m' -> is_dir m k = true -> is_dir m' k = true.
Proof.
  unfold is_dir. intros Hk. destruct (m !! k) as [[|tm]|] eqn:Hm; try discriminate.
  destruct (Hk k _ Hm) as (n' & -> & Hs). destruct n'; [discriminate | reflexivity].
Qed.

Lemma mirrored_refl s t m : mirrored s t m m.
Proof. split; [apply kept_refl | congruence]. Qed.

Lemma mirrored_trans s t m1 m2 m3 :
  mirrored s t m1 m2 -> mirrored s t m2 m3 -> mirrored s t m1 m3.
Proof.
  intros [Hk12 Hc12] [Hk23 Hc23]. split; [eapply kept_trans; eauto|].
  intros k Hk.
  destruct (decide (m3 !! k = m2 !! k)) as [Heq|Hne].
  - rewrite Heq in Hk. destruct (Hc12 k Hk) as (rel & -> & Hsome).
    exists rel. split; [reflexivity|]. eapply kept_is_Some; eauto.
  - now apply Hc23.
Qed.

Lemma mirrored_child s t n m m' :
  mirrored (s ++ [n]) (t ++ [n]) m m' -> mirrored s t m m'.
Proof.
  intros [Hk Hc]. split; [exact Hk|].
  intros k Hne. destruct (Hc k Hne) as (rel & -> & Hsome).
  exists (n :: rel). rewrite <- !app_assoc in *. simpl in *. eauto.
Qed.

(** Writing at [k = t ++ rel] something of the same file type as what was
    there, if anything was, while [s ++ rel] exists. *)
Lemma mirrored_insert (s t rel k : path) (nd : node) (m : gmap path node) :
  k = t ++ rel ->
  (forall n, m !! k = Some n -> status n = status nd) ->
  is_Some (<[k := nd]> m !! (s ++ rel)) ->
  mirrored s t m (<[k := nd]> m).
Proof.
  intros Hk Hsame Hsrc. split.
  - intros k' n Hk'. destruct (decide (k = k')) as [<-|Hne].
    + rewrite lookup_insert_eq. exists nd. split; [reflexivity|].
      symmetry. now apply Hsame.
    + rewrite lookup_insert_ne by exact Hne. eauto.
  - intros k' Hk'. destruct (decide (k = k')) as [<-|Hne].
    + eauto.
    + rewrite lookup_insert_ne in Hk' by exact Hne. congruence.
Qed.

Lemma CreateDirectory_mirrored H (s t : path) w b w' :
  CreateDirectory H t w = Ok (b, w') ->
  is_Some (files w' !! s) ->
  mirrored s t (files w) (files w') /\ log w' = log w.
Proof.
  unfold CreateDirectory, CreateDirectory_permitted.
  destruct (present (files w) t) eqn:Hp; cbn [negb andb].
  { intros [= _ <-] _. split; [apply mirrored_refl | reflexivity]. }
  destruct (is_dir (files w) (parent_path t) && negb (refuses H (ReqCreateDirectory t))).
  2:{ intros [= _ <-] _. split; [apply mirrored_refl | reflexivity]. }
  intros [= _ <-]. cbn [files log]. intros Hs. split; [|reflexivity].
  apply (mirrored_insert s t []).
  - now rewrite app_nil_r.
  - unfold present in Hp. intros n Hn. now rewrite Hn in Hp.
  - now rewrite app_nil_r.
Qed.

Lemma CopyDirTo_file_effect H (t : path) (e : directory_entry) w w' :
  CopyDirTo_file H t e w = Ok (tt, w') ->
  let d := t // filename (entry_path e) in
  (files w' = files w
   \/ exists tm c, files w !! entry_path e = Some (File tm c)
                 /\ is_dir (files w) d = false
                 /\ files w' = <[d := File tm c]> (files w))
  /\ exists l, log w' = log w ++ l.
Proof.
  intros Hrun d. revert Hrun. unfold CopyDirTo_file. fold d.
  unfold bind, fs_exists, last_write_time, CopyFile, LOG_INFO, LOG_LAST_ERROR, ret.
  assert (Hnil : exists l, log w = log w ++ l) by (exists []; now rewrite app_nil_r).
  assert (Hperm : forall src, CopyFile_permitted H (files w) src d false = true ->
                              is_dir (files w) d = false).
  { unfold CopyFile_permitted. intros src Hp.
    destruct (is_dir (files w) d); [|reflexivity].
    rewrite andb_false_r in Hp. cbn in Hp. discriminate. }
  case_matches; intros Hrun; simplify_eq; cbn [files log]; (split; [|eauto]); auto.
  all: right; eexists _, _; split; [reflexivity|]; split; [eauto | reflexivity].
Qed.

Lemma CopyDirTo_file_mirrored H (s t : path) n ty w w' :
  CopyDirTo_file H t (mkEntry (s ++ [n]) ty) w = Ok (tt, w') ->
  mirrored s t (files w) (files w').
Proof.
  intros Hrun. apply CopyDirTo_file_effect in Hrun as [Hfiles _].
  cbn [entry_path] in Hfiles. rewrite filename_snoc in Hfiles.
  unfold path_append in Hfiles.
  destruct Hfiles as [-> | (tm & c & Hsrc & Hnd & ->)]; [apply mirrored_refl|].
  apply (mirrored_insert s t [n]); [reflexivity | |].
  - intros nd Hd. unfold is_dir in Hnd. rewrite Hd in Hnd.
    destruct nd; [reflexivity | discriminate].
  - destruct (decide (t ++ [n] = s ++ [n])) as [->|Hne].
    + rewrite lookup_insert_eq. eauto.
    + rewrite lookup_insert_ne by exact Hne. eauto.
Qed.

(** Whatever the fuel, a mirror step that returns has only made changes of
    this kind. *)
Lemma CopyDirTo_mirrored H fuel :
  forall (s t : path) w w',
    CopyDirTo fuel H s t w = Ok (tt, w') -> mirrored s t (files w) (files w').
Proof.
  induction fuel as [|fuel IH]; intros s t w w'; [discriminate|].
  cbn [CopyDirTo]. intros Hrun.
  apply bind_Ok in Hrun as (ex & w0 & Hex & Hrun). injection Hex as <- <-.
  apply bind_Ok in Hrun as ([] & w1 & Hmk & Hrun).
  apply bind_Ok in Hrun as (entries & w1' & Hls & Hrun).
  unfold directory_iterator in Hls.
  destruct (files w1 !! s) as [[|tm]|] eqn:Hs; try discriminate.
  injection Hls as <- <-.
  assert (Hw1 : mirrored s t (files w) (files w1)).
  { destruct (negb (present (files w) t)).
    - apply bind_Ok in Hmk as (b & w2 & Hmk & Hret). injection Hret as <-.
      apply (CreateDirectory_mirrored H s) in Hmk; [tauto | rewrite Hs; eauto].
    - injection Hmk as <-. apply mirrored_refl. }
  apply (mirrored_trans _ _ _ _ _ Hw1).
  assert (Hentries : forall e, e ∈ children (files w1) s ->
                               exists n, entry_path e = s ++ [n]).
  { intros e He. apply children_spec in He as (n & nd & _ & ->). eauto. }
  revert Hentries Hrun. generalize (children (files w1) s) as l. clear Hs Hw1 Hmk.
  intros l. revert w1. induction l as [|e l IHl]; intros w1 Hentries Hrun.
  - injection Hrun as <-. apply mirrored_refl.
  - apply for_each_cons_Ok in Hrun as (w2 & Hbody & Hrest).
    destruct (Hentries e) as [n Hn]; [left|].
    apply (mirrored_trans _ _ _ (files w2)).
    + unfold CopyDirTo_body in Hbody. destruct e as [ep ty]. cbn in Hn, Hbody. subst ep.
      destruct ty.
      * eapply CopyDirTo_file_mirrored; eauto.
      * rewrite filename_snoc in Hbody. apply IH in Hbody.
        now apply mirrored_child in Hbody.
    + apply IHl; [|exact Hrest]. intros e' He'. apply Hentries. now right.
Qed.

(** ** The mirror step returns *)

Lemma depth_bound (m : gmap path node) k : is_Some (m !! k) -> (length k <= depth m)%nat.
Proof.
  intros [n Hn]. unfold depth. apply max_list_elem_of_le.
  apply list_elem_of_fmap. exists (k, n). split; [reflexivity|].
  now apply elem_of_map_to_list.
Qed.

Lemma bounded_depth (m : gmap path node) s : bounded m s (depth m).
Proof.
  intros rel Hrel. apply depth_bound in Hrel. rewrite length_app in Hrel. lia.
Qed.

Lemma bounded_child (m : gmap path node) s n h :
  bounded m s h -> is_Some (m !! (s ++ [n])) ->
  (1 <= h)%nat /\ bounded m (s ++ [n]) (h - 1).
Proof.
  intros Hb Hn. split.
  - apply (Hb [n] Hn).
  - intros rel Hrel. rewrite <- app_assoc in Hrel. apply Hb in Hrel. simpl in Hrel. lia.
Qed.

(** When the target is not inside the source, the mirror step does not make
    the source deeper. *)
Lemma mirrored_bounded (a b : path) m m' h :
  mirrored a b m m' -> ~ a `prefix_of` b -> bounded m a h -> bounded m' a h.
Proof.
  intros [Hkept Hchanged] Hnot Hb.
  assert (Hind : forall j rel, (depth m' - length rel < j)%nat ->
                               is_Some (m' !! (a ++ rel)) -> (length rel <= h)%nat).
  { induction j as [|j IH]; intros rel Hj Hrel; [lia|].
    destruct (decide (m' !! (a ++ rel) = m !! (a ++ rel))) as [Heq|Hne].
    { apply Hb. now rewrite <- Heq. }
    destruct (Hchanged _ Hne) as (rel2 & Heq & Hrel2).
    apply app_eq_inv in Heq as [(u & -> & ->) | (u & -> & _)].
    - destruct u as [|x u].
      { exfalso. apply Hnot. rewrite app_nil_r. reflexivity. }
      pose proof (depth_bound _ _ Hrel2) as Hd.
      rewrite !length_app in Hd. simpl in Hd.
      assert (Hle : (length ((x :: u) ++ rel) <= h)%nat).
      { apply IH; [|exact Hrel2]. rewrite length_app. simpl. lia. }
      rewrite length_app in Hle. lia.
    - exfalso. apply Hnot. now exists u. }
  intros rel Hrel. apply (Hind (S (depth m')) rel); [lia | exact Hrel].
Qed.

Lemma CreateDirectory_kept H (t : path) w b w' :
  CreateDirectory H t w = Ok (b, w') -> kept (files w) (files w').
Proof.
  unfold CreateDirectory, CreateDirectory_permitted.
  destruct (present (files w) t) eqn:Hp; cbn [negb andb].
  { intros [= _ <-]. apply kept_refl. }
  destruct (is_dir (files w) (parent_path t) && negb (refuses H (ReqCreateDirectory t))).
  2:{ intros [= _ <-]. apply kept_refl. }
  intros [= _ <-]. cbn [files]. intros k n Hk.
  destruct (decide (t = k)) as [<-|Hne].
  - unfold present in Hp. now rewrite Hk in Hp.
  - rewrite lookup_insert_ne by exact Hne. eauto.
Qed.

Lemma CreateDirectory_returns H (t : path) w :
  exists b w', CreateDirectory H t w = Ok (b, w').
Proof. unfold CreateDirectory. destruct (CreateDirectory_permitted H (files w) t); eauto. Qed.

Lemma CopyDirTo_file_returns H (t : path) (e : directory_entry) w :
  is_Some (files w !! entry_path e) ->
  exists w', CopyDirTo_file H t e w = Ok (tt, w').
Proof.
  intros [n Hn]. unfold CopyDirTo_file.
  unfold bind, fs_exists, last_write_time, CopyFile, LOG_INFO, LOG_LAST_ERROR, ret.
  unfold present.
  case_matches; try congruence; eauto.
Qed.

Lemma is_dir_status (m : gmap path node) k n :
  m !! k = Some n -> status n = directory -> is_dir m k = true.
Proof. unfold is_dir. intros -> Hs. destruct n; [discriminate | reflexivity]. Qed.

Lemma not_prefix_child (s t : path) n :
  ~ s `prefix_of` t -> ~ (s ++ [n]) `prefix_of` (t ++ [n]).
Proof.
  intros Hnot [u Hu]. apply Hnot.
  destruct u as [|x u _] using rev_ind.
  - rewrite app_nil_r in Hu. apply app_inj_tail in Hu as [-> _]. reflexivity.
  - rewrite !app_assoc in Hu. apply app_inj_tail in Hu as [-> _].
    rewrite <- app_assoc. now eexists.
Qed.

Lemma CopyDirTo_returns H fuel :
  forall (h : nat) (s t : path) w,
    (h < fuel)%nat -> ~ s `prefix_of` t ->
    is_dir (files w) s = true -> bounded (files w) s h ->
    exists w', CopyDirTo fuel H s t w = Ok (tt, w').
Proof.
  induction fuel as [|fuel IH]; intros h s t w Hh Hnot Hs Hb; [lia|].
  cbn [CopyDirTo]. unfold bind at 1. cbn [fs_exists].
  assert (Hmk : exists w1,
             (if negb (present (files w) t)
              then (let* _ := CreateDirectory H t in ret tt) else ret tt) w = Ok (tt, w1)
             /\ mirrored s t (files w) (files w1)).
  { destruct (negb (present (files w) t)).
    - destruct (CreateDirectory_returns H t w) as (b & w1 & Hrun).
      exists w1. unfold bind. rewrite Hrun. split; [reflexivity|].
      eapply CreateDirectory_mirrored; [exact Hrun|].
      apply CreateDirectory_kept in Hrun.
      apply (kept_is_Some _ _ _ Hrun). unfold is_dir in Hs.
      destruct (files w !! s); [eauto | discriminate].
    - exists w. split; [reflexivity | apply mirrored_refl]. }
  destruct Hmk as (w1 & Hrun1 & Hw1).
  unfold bind at 1. rewrite Hrun1.
  assert (Hs1 : is_dir (files w1) s = true) by (eapply kept_is_dir; [apply Hw1 | exact Hs]).
  unfold bind at 1, directory_iterator. unfold is_dir in Hs1.
  destruct (files w1 !! s) as [[|tm]|] eqn:Hs1'; try discriminate.
  assert (Hloop : forall l wi,
             (forall e, e ∈ l ->
                exists n nd, files w1 !! (s ++ [n]) = Some nd
                             /\ e = mkEntry (s ++ [n]) (status nd)) ->
             mirrored s t (files w1) (files wi) ->
             exists w', for_each l (CopyDirTo_body (CopyDirTo fuel H) H t) wi
                        = Ok (tt, w')).
  2:{ apply Hloop; [|apply mirrored_refl].
      intros e He. now apply children_spec in He. }
  induction l as [|e l IHl]; intros wi Hentries Hinv.
  - exists wi. reflexivity.
  - destruct (Hentries e) as (n & nd & Hnd & ->); [left|].
    destruct (proj1 Hinv _ _ Hnd) as (nd' & Hnd' & Hst).
    assert (Hbody : exists wi',
               CopyDirTo_body (CopyDirTo fuel H) H t (mkEntry (s ++ [n]) (status nd)) wi
               = Ok (tt, wi')
               /\ mirrored s t (files wi) (files wi')).
    { unfold CopyDirTo_body. cbn [entry_type entry_path].
      destruct (status nd) eqn:Hty.
      - destruct (CopyDirTo_file_returns H t (mkEntry (s ++ [n]) regular) wi)
          as [wi' Hrun]; [cbn; eauto|].
        exists wi'. split; [exact Hrun|]. eapply CopyDirTo_file_mirrored; eauto.
      - rewrite filename_snoc.
        assert (Hbi : bounded (files wi) s h).
        { apply (mirrored_bounded s t (files w)); [|exact Hnot | exact Hb].
          eapply mirrored_trans; eauto. }
        destruct (bounded_child _ _ n _ Hbi) as [Hh1 Hbn]; [eauto|].
        destruct (IH (h - 1)%nat (s ++ [n]) (t ++ [n]) wi) as [wi' Hrun].
        + lia.
        + now apply not_prefix_child.
        + eapply is_dir_status; eauto.
        + exact Hbn.
        + exists wi'. split; [exact Hrun|].
          apply CopyDirTo_mirrored in Hrun. now apply mirrored_child in Hrun. }
    destruct Hbody as (wi' & Hrun & Hstep).
    destruct (IHl wi') as [w' Hrest].
    + intros e' He'. apply Hentries. now right.
    + eapply mirrored_trans; eauto.
    + exists w'. cbn [for_each]. unfold bind. rewrite Hrun. exact Hrest.
Qed.

(** ** What the mirror step leaves alone *)

(** C8, as amended. A mirror step that returns has deleted nothing: every
    entry is still there with its file type. An entry under the target
    folder whose counterpart under the source folder is absent when the step
    ends (so was absent throughout, the step deleting nothing) is exactly as
    it was, and so is every entry outside the target folder, the folder that
    holds the target apart. When neither folder is inside the other, this
    holds for every entry whose counterpart is absent when the step begins.
    [CopyToDirectory] without [cleanDest] deletes nothing either, and with
    [cleanDest] deletes nothing outside the destination: only its clean step
    removes entries. *)
Theorem CopyDirTo_leaves_strays (H : host) (fuel : nat) (s t : path) (w w' : world) :
  CopyDirTo fuel H s t w = Ok (tt, w') ->
  (forall k n, files w !! k = Some n ->
               exists n', files w' !! k = Some n' /\ status n' = status n)
  /\ (forall rel, files w' !! (s ++ rel) = None ->
                  files w' !! (t ++ rel) = files w !! (t ++ rel))
  /\ (forall k, ~ t `prefix_of` k -> k <> parent_path t ->
                files w' !! k = files w !! k)
  /\ (~ s `prefix_of` t -> ~ t `prefix_of` s ->
      forall rel, files w !! (s ++ rel) = None ->
                  files w' !! (t ++ rel) = files w !! (t ++ rel))
  /\ (forall destination source w0 hr w0',
        CopyToDirectory fuel H destination source false w0 = Ok (hr, w0') ->
        forall k, is_Some (files w0 !! k) -> is_Some (files w0' !! k))
  /\ (forall destination source cleanDest w0 hr w0',
        CopyToDirectory fuel H destination source cleanDest w0 = Ok (hr, w0') ->
        forall k, ~ to_path destination `prefix_of` k ->
                  is_Some (files w0 !! k) -> is_Some (files w0' !! k)).
Proof.
  intros Hrun. apply CopyDirTo_mirrored in Hrun as [Hkept Hchanged].
  assert (Hstray : forall rel, files w' !! (s ++ rel) = None ->
                               files w' !! (t ++ rel) = files w !! (t ++ rel)).
  { intros rel Hnone.
    destruct (decide (files w' !! (t ++ rel) = files w !! (t ++ rel))) as [|Hne]; [done|].
    destruct (Hchanged _ Hne) as (rel' & Heq & Hsome).
    apply app_inv_head in Heq as <-. rewrite Hnone in Hsome. now destruct Hsome. }
  split; [exact Hkept|]. split; [exact Hstray|]. split; [|split; [|split]].
  - intros k Hout _.
    destruct (decide (files w' !! k = files w !! k)) as [|Hne]; [done|].
    destruct (Hchanged _ Hne) as (rel' & -> & _). exfalso. apply Hout. now exists rel'.
  - intros Hst Hts rel Hnone. apply Hstray.
    destruct (decide (files w' !! (s ++ rel) = files w !! (s ++ rel))) as [Heq|Hne].
    { now rewrite Heq. }
    destruct (Hchanged _ Hne) as (rel' & Heq & _). exfalso.
    apply app_eq_inv in Heq as [(u & -> & _) | (u & -> & _)].
    + apply Hts. now exists u.
    + apply Hst. now exists u.
  - intros destination source w0 hr w0'. unfold CopyToDirectory.
    destruct (bool_decide _).
    { intros [= _ <-]. auto. }
    intros Hrun0. apply bind_Ok in Hrun0 as (clean & w1 & Hclean & Hrun0).
    injection Hclean as <- <-.
    apply bind_Ok in Hrun0 as ([] & w1 & Hnone & Hrun0). injection Hnone as <-.
    apply bind_Ok in Hrun0 as ([] & w2 & Hrun0 & Hret). injection Hret as _ <-.
    apply CopyDirTo_mirrored in Hrun0 as [Hkept0 _].
    intros k. now apply kept_is_Some.
  - intros destination source cleanDest w0 hr w0'. unfold CopyToDirectory.
    destruct (bool_decide _).
    { intros [= _ <-]. auto. }
    intros Hrun0 k Hout Hk.
    apply bind_Ok in Hrun0 as (clean & w1 & Hclean & Hrun0).
    assert (w1 = w0) as ->.
    { destruct cleanDest; now injection Hclean as _ <-. }
    apply bind_Ok in Hrun0 as ([] & w2 & Hrm & Hrun0).
    apply bind_Ok in Hrun0 as ([] & w3 & Hrun0 & Hret). injection Hret as _ <-.
    apply CopyDirTo_mirrored in Hrun0 as [Hkept0 _].
    apply (kept_is_Some _ _ _ Hkept0).
    destruct clean.
    + unfold remove_all in Hrm. destruct (refuses H _); [discriminate|].
      injection Hrm as <-. cbn [files]. now rewrite lookup_remove_all.
    + now injection Hrm as <-.
Qed.

Lemma CopyDirTo_leaves_strays_witness :
  exists w', CopyDirTo 3 quiet ["C:"; "src"] ["C:"; "dst"] disk0 = Ok (tt, w')
             /\ files disk0 !! (["C:"; "src"] ++ ["stray"]) = None
             /\ files w' !! (["C:"; "dst"] ++ ["stray"]) = Some (File 3 "stray").
Proof.
  destruct (CopyDirTo 3 quiet ["C:"; "src"] ["C:"; "dst"] disk0)
    as [[[] w']| |] eqn:Hrun; [|vm_compute in Hrun; discriminate Hrun ..].
  exists w'. split; [reflexivity|]. split; [reflexivity|].
  rewrite (proj1 (proj2 (proj2 (proj2
             (CopyDirTo_leaves_strays quiet 3 ["C:"; "src"] ["C:"; "dst"] disk0 w' Hrun))))).
  - reflexivity.
  - intros [k Hk]. discriminate Hk.
  - intros [k Hk]. discriminate Hk.
  - reflexivity.
Defined.

(** C8, as the claim has it, fails. With the target folder [C:\a] above the
    source folder [C:\a\b], which the guard of [CopyToDirectory] lets
    through, the step writes into its own source: it copies
    [C:\a\b\b\sub\x] to [C:\a\b\sub\x], and then, walking [C:\a\b\sub], copies
    that file over [C:\a\sub\x], an entry of the destination whose counterpart
    [C:\a\b\sub\x] was absent from the source when the step began. *)
Lemma CopyDirTo_overwrites_stray :
  files over !! (["C:"; "a"; "b"] ++ ["sub"; "x"]) = None
  /\ files over !! (["C:"; "a"] ++ ["sub"; "x"]) = Some (File 3 "stray")
  /\ (exists w', CopyDirTo 4 quiet ["C:"; "a"; "b"] ["C:"; "a"] over = Ok (tt, w')
                 /\ files w' !! (["C:"; "a"] ++ ["sub"; "x"]) = Some (File 10 "new x"))
  /\ (exists w', CopyToDirectory 4 quiet "C:\a" "C:\a\b" false over = Ok (S_OK, w')
                 /\ files w' !! (["C:"; "a"] ++ ["sub"; "x"]) = Some (File 10 "new x")).
Proof.
  split; [reflexivity|]. split; [reflexivity|]. split.
  - eexists. split; [vm_compute; reflexivity|]. vm_compute. reflexivity.
  - eexists. split; [vm_compute; reflexivity|]. vm_compute. reflexivity.
Qed.


(** ** Every file is mirrored *)

Lemma children_paths_NoDup (m : gmap path node) (p : path) :
  NoDup (entry_path <$> children m p).
Proof.
  unfold children. pose proof (NoDup_fst_map_to_list m) as Hnd.
  induction (map_to_list m) as [|[k nd] l IH]; [constructor|].
  rewrite fmap_cons in Hnd. apply NoDup_cons in Hnd as [Hk Hl]. cbn [omap list_omap].
  cbn [fst snd]. destruct (decide (child_of p k)); [|now apply IH].
  cbn [fmap list_fmap entry_path]. apply NoDup_cons. split; [|now apply IH].
  intros Hin. apply Hk. apply list_elem_of_fmap in Hin as (e & -> & He).
  apply list_elem_of_omap in He as ([k' nd'] & Hkv & Hsome). cbn [fst snd] in Hsome.
  destruct (decide (child_of p k')); [|discriminate]. injection Hsome as <-.
  cbn [entry_path]. apply list_elem_of_fmap. now exists (k', nd').
Qed.



(** When neither folder is inside the other, the source is left as it is. *)
Lemma mirrored_source (s t : path) m m' :
  mirrored s t m m' -> ~ s `prefix_of` t -> ~ t `prefix_of` s ->
  forall rel, m' !! (s ++ rel) = m !! (s ++ rel).
Proof.
  intros [_ Hchanged] Hst Hts rel.
  destruct (decide (m' !! (s ++ rel) = m !! (s ++ rel))) as [|Hne]; [done|].
  destruct (Hchanged _ Hne) as (rel' & Heq & _). exfalso.
  apply app_eq_inv in Heq as [(u & -> & _) | (u & -> & _)].
  - apply Hts. now exists u.
  - apply Hst. now exists u.
Qed.

Lemma mirrored_outside (s t : path) m m' k :
  mirrored s t m m' -> ~ t `prefix_of` k -> m' !! k = m !! k.
Proof.
  intros [_ Hchanged] Hout.
  destruct (decide (m' !! k = m !! k)) as [|Hne]; [done|].
  destruct (Hchanged _ Hne) as (rel' & -> & _). exfalso. apply Hout. now exists rel'.
Qed.


Lemma sibling_not_prefix (t : path) n n' k :
  n' <> n -> (t ++ [n]) `prefix_of` k -> ~ (t ++ [n']) `prefix_of` k.
Proof.
  intros Hne [u ->] [u' Hu']. rewrite <- !app_assoc in Hu'.
  apply app_inv_head in Hu'. simpl in Hu'. congruence.
Qed.



Lemma CreateDirectory_effect H (t : path) w b w' :
  CreateDirectory H t w = Ok (b, w') ->
  (CreateDirectory_permitted H (files w) t = false /\ w' = w)
  \/ (CreateDirectory_permitted H (files w) t = true
      /\ files w' = <[t := Directory (now H)]> (files w)).
Proof.
  unfold CreateDirectory. destruct (CreateDirectory_permitted H (files w) t).
  - intros [= _ <-]. right. split; reflexivity.
  - intros [= _ <-]. left. split; reflexivity.
Qed.

(** The state in which the loop of a mirror step starts. *)
Lemma CopyDirTo_loop_start H fuel (s t : path) w w' :
  CopyDirTo (S fuel) H s t w = Ok (tt, w') ->
  exists w1,
    for_each (children (files w1) s) (CopyDirTo_body (CopyDirTo fuel H) H t) w1
    = Ok (tt, w')
    /\ is_dir (files w1) s = true
    /\ (files w1 = files w
        \/ (present (files w) t = false
            /\ CreateDirectory_permitted H (files w) t = true
            /\ files w1 = <[t := Directory (now H)]> (files w)))
    /\ (present (files w) t = false ->
        CreateDirectory_permitted H (files w) t = true ->
        files w1 = <[t := Directory (now H)]> (files w)).
Proof.
  cbn [CopyDirTo]. intros Hrun.
  apply bind_Ok in Hrun as (ex & w0 & Hex & Hrun). injection Hex as <- <-.
  apply bind_Ok in Hrun as ([] & w1 & Hmk & Hrun).
  apply bind_Ok in Hrun as (entries & w1' & Hls & Hrun).
  unfold directory_iterator in Hls.
  destruct (files w1 !! s) as [[|tm]|] eqn:Hs; try discriminate.
  injection Hls as <- <-.
  exists w1. split; [exact Hrun|]. split; [unfold is_dir; now rewrite Hs|].
  destruct (present (files w) t) eqn:Hp; cbn [negb] in Hmk.
  - injection Hmk as <-. split; [now left | discriminate].
  - apply bind_Ok in Hmk as (b & w2 & Hmk & Hret). injection Hret as <-.
    apply CreateDirectory_effect in Hmk as [[Hperm ->] | [Hperm Hfiles]].
    + split; [now left | congruence].
    + split; [right; auto | auto].
Qed.


Lemma snoc_assoc (p : path) n x : p ++ n :: x = (p ++ [n]) ++ x.
Proof. now rewrite <- app_assoc. Qed.

Lemma prefix_snoc (p : path) n x : (p ++ [n]) `prefix_of` (p ++ n :: x).
Proof. exists x. apply snoc_assoc. Qed.


(** ** Best effort *)

(** A call that passes the guard, whose clean step succeeds and spares the
    source, and whose destination is not inside the source directory, returns
    [S_OK] once it has fuel enough, whatever the system refuses to the
    directory creations and the copies. *)
Lemma CopyToDirectory_returns (H : host) (destination source : wstring)
    (cleanDest : bool) (w : world) :
  (~ exists rest, destination = (source ++ rest)%string) ->
  ~ to_path source `prefix_of` to_path destination ->
  is_dir (files w) (to_path source) = true ->
  (cleanDest = true -> present (files w) (to_path destination) = true ->
   refuses H (ReqRemoveAll (to_path destination)) = false
   /\ ~ to_path destination `prefix_of` to_path source) ->
  exists fuel0 : nat, forall fuel : nat, (fuel0 <= fuel)%nat ->
    exists w', CopyToDirectory fuel H destination source cleanDest w = Ok (S_OK, w').
Proof.
  intros Hguard Hnot Hsrc Hclean.
  assert (Hpre : exists w2,
             is_dir (files w2) (to_path source) = true
             /\ forall fuel,
                 CopyToDirectory fuel H destination source cleanDest w
                 = (CopyDirTo fuel H (to_path source) (to_path destination);;
                    ret S_OK) w2).
  { unfold CopyToDirectory.
    rewrite bool_decide_eq_false_2.
    2:{ intros Hfind. apply Hguard. now apply starts_with_spec, find_zero. }
    destruct cleanDest.
    - unfold bind at 1, fs_exists.
      destruct (present (files w) (to_path destination)) eqn:Hp.
      + destruct (Hclean eq_refl eq_refl) as [Hallowed Hspared].
        unfold bind at 1, remove_all. rewrite Hallowed.
        eexists. split; [|reflexivity]. cbn [files].
        unfold is_dir. now rewrite lookup_remove_all.
      + exists w. split; [exact Hsrc | reflexivity].
    - exists w. split; [exact Hsrc | reflexivity]. }
  destruct Hpre as (w2 & Hsrc2 & Hrun).
  exists (S (depth (files w2))). intros fuel Hfuel.
  destruct (CopyDirTo_returns H fuel (depth (files w2)) (to_path source)
              (to_path destination) w2) as [w' Hw'];
    [lia | exact Hnot | exact Hsrc2 | apply bounded_depth |].
  exists w'. rewrite Hrun. unfold bind. now rewrite Hw'.
Qed.




(** With [f1] locked, its copy fails and is logged; [sub\f2] is copied all
    the same, and the call returns [S_OK]. *)
Example CopyToDirectory_locked_file :
  exists w', CopyToDirectory 3 locked "C:\dst" "C:\src" false disk0 = Ok (S_OK, w')
             /\ files w' !! ["C:"; "dst"; "f1"] = Some (File 5 "old f1")
             /\ files w' !! ["C:"; "dst"; "sub"; "f2"] = Some (File 10 "f2")
             /\ LogLastError ∈ log w'.
Proof.
  eexists. split; [vm_compute; reflexivity|].
  split; [reflexivity|]. split; [reflexivity|].
  vm_compute log. apply list_elem_of_In. vm_compute. tauto.
Qed.

(** ** When the target folder cannot be created *)

Lemma absent_below (m : gmap path node) (t : path) :
  well_formed m -> m !! t = None -> forall rel, m !! (t ++ rel) = None.
Proof.
  intros Hwf Ht rel. induction rel as [|x rel IH] using rev_ind.
  - now rewrite app_nil_r.
  - destruct (m !! (t ++ rel ++ [x])) as [n|] eqn:Hn; [|reflexivity].
    apply Hwf in Hn as [Hnil | Hdir].
    + destruct t, rel; discriminate Hnil.
    + rewrite app_assoc, parent_path_snoc in Hdir.
      unfold is_dir in Hdir. now rewrite IH in Hdir.
Qed.

Lemma CopyDirTo_without_target H fuel :
  forall (h : nat) (s t : path) w,
    (h < fuel)%nat -> bounded (files w) s h -> is_dir (files w) s = true ->
    (forall rel, files w !! (t ++ rel) = None) ->
    CreateDirectory_permitted H (files w) t = false ->
    exists l, CopyDirTo fuel H s t w = Ok (tt, mkWorld (files w) (log w ++ l))
              /\ Forall (eq LogLastError) l.
Proof.
  induction fuel as [|fuel IH]; intros h s t w Hh Hb Hs Habsent Hperm; [lia|].
  cbn [CopyDirTo]. unfold bind at 1, fs_exists.
  assert (Ht : present (files w) t = false).
  { unfold present. specialize (Habsent []). rewrite app_nil_r in Habsent.
    now rewrite Habsent. }
  rewrite Ht. cbn [negb]. unfold bind at 1. unfold bind at 1, CreateDirectory.
  rewrite Hperm. cbn [ret]. unfold bind at 1, directory_iterator.
  unfold is_dir in Hs. destruct (files w !! s) as [[|tm]|] eqn:Hs'; try discriminate.
  assert (Hloop : forall l lg,
             (forall e, e ∈ l ->
                exists n nd, files w !! (s ++ [n]) = Some nd
                             /\ e = mkEntry (s ++ [n]) (status nd)) ->
             exists l', for_each l (CopyDirTo_body (CopyDirTo fuel H) H t)
                          (mkWorld (files w) lg)
                        = Ok (tt, mkWorld (files w) (lg ++ l'))
                        /\ Forall (eq LogLastError) l').
  { induction l as [|e l IHl]; intros lg Hentries.
    - exists []. rewrite app_nil_r. split; [reflexivity | constructor].
    - destruct (Hentries e) as (n & nd & Hnd & ->); [left|].
      assert (Hbody : exists l1,
                 CopyDirTo_body (CopyDirTo fuel H) H t (mkEntry (s ++ [n]) (status nd))
                   (mkWorld (files w) lg)
                 = Ok (tt, mkWorld (files w) (lg ++ l1))
                 /\ Forall (eq LogLastError) l1).
      { unfold CopyDirTo_body. cbn [entry_type entry_path].
        destruct nd as [tm' c|tm']; cbn [status].
        - exists [LogLastError]. split; [|repeat constructor].
          apply (CopyDirTo_file_fails H t (mkEntry (s ++ [n]) regular) tm' c
                   (mkWorld (files w) lg) Hnd).
          + left. cbn [entry_path files]. rewrite filename_snoc. apply Habsent.
          + cbn [entry_path files]. rewrite filename_snoc.
            unfold CopyFile_permitted, path_append. rewrite parent_path_snoc.
            unfold is_dir at 1. specialize (Habsent []). rewrite app_nil_r in Habsent.
            rewrite Habsent. reflexivity.
        - rewrite filename_snoc.
          destruct (bounded_child _ _ n _ Hb) as [Hh1 Hbn]; [eauto|].
          destruct (IH (h - 1)%nat (s ++ [n]) (t ++ [n]) (mkWorld (files w) lg))
            as (l1 & Hrun & Hl1); cbn [files log].
          + lia.
          + exact Hbn.
          + unfold is_dir. now rewrite Hnd.
          + intros rel. rewrite <- app_assoc. apply Habsent.
          + unfold CreateDirectory_permitted. rewrite parent_path_snoc.
            unfold is_dir. specialize (Habsent []). rewrite app_nil_r in Habsent.
            rewrite Habsent. now rewrite andb_false_r.
          + exists l1. split; [exact Hrun | exact Hl1]. }
      destruct Hbody as (l1 & Hrun1 & Hl1).
      destruct (IHl (lg ++ l1)) as (l2 & Hrun2 & Hl2).
      { intros e' He'. apply Hentries. now right. }
      exists (l1 ++ l2). cbn [for_each]. unfold bind. rewrite Hrun1, Hrun2.
      rewrite app_assoc. split; [reflexivity | now apply Forall_app]. }
  destruct w as [m lg]. cbn [files log] in *. apply Hloop.
  intros e He. now apply children_spec in He.
Qed.

Lemma CopyDirTo_enters_loop H fuel (s t : path) w :
  is_dir (files w) s = true -> files w !! t = None ->
  CreateDirectory_permitted H (files w) t = false ->
  CopyDirTo (S fuel) H s t w
  = for_each (children (files w) s) (CopyDirTo_body (CopyDirTo fuel H) H t) w.
Proof.
  intros Hs Ht Hperm. cbn [CopyDirTo]. unfold bind at 1, fs_exists.
  rewrite (present_None _ _ Ht). cbn [negb].
  unfold bind at 1. unfold bind at 1, CreateDirectory. rewrite Hperm. cbn [ret].
  unfold bind at 1, directory_iterator. unfold is_dir in Hs.
  destruct (files w !! s) as [[|tm]|]; try discriminate. reflexivity.
Qed.

(** ** Counting the entries of a tree *)

Lemma well_formed_rooted (m : gmap path node) (s : path) : well_formed m -> rooted m s.
Proof.
  intros Hwf rel x [nd Hnd]. rewrite app_assoc in Hnd.
  pose proof (Hwf _ _ Hnd) as Hpar. cbn beta in Hpar.
  rewrite parent_path_snoc in Hpar. destruct Hpar as [Hnil | Hpar]; [|exact Hpar].
  destruct (s ++ rel); discriminate Hnil.
Qed.

Lemma rooted_child (m : gmap path node) (s : path) n : rooted m s -> rooted m (s ++ [n]).
Proof.
  intros Hr rel x Hsome. rewrite <- !app_assoc in *.
  apply (Hr ([n] ++ rel) x). exact Hsome.
Qed.


(** Whatever is below [s] goes through a child of [s]. *)
Lemma rooted_above (m : gmap path node) (s : path) n rel :
  rooted m s -> is_Some (m !! (s ++ n :: rel)) -> is_Some (m !! (s ++ [n])).
Proof.
  intros Hr. induction rel as [|x rel IH] using rev_ind; [auto|].
  intros Hsome. apply IH.
  pose proof (Hr (n :: rel) x Hsome) as Hdir. unfold is_dir in Hdir.
  destruct (m !! (s ++ n :: rel)); [eauto | discriminate].
Qed.

(** Nothing lies below a regular file. *)
Lemma rooted_file (m : gmap path node) (s : path) n tm c k :
  rooted m s -> m !! (s ++ [n]) = Some (File tm c) ->
  (s ++ [n]) `prefix_of` k -> is_Some (m !! k) -> k = s ++ [n].
Proof.
  intros Hr Hfile [u ->] Hsome. destruct u as [|x u _] using rev_ind.
  { now rewrite app_nil_r. }
  exfalso. assert (Hdir : is_dir m ((s ++ [n]) ++ u) = true).
  { rewrite <- app_assoc. apply (Hr ([n] ++ u) x).
    now rewrite <- !app_assoc in Hsome |- *. }
  destruct u as [|y u _] using rev_ind.
  - rewrite app_nil_r in Hdir. unfold is_dir in Hdir. now rewrite Hfile in Hdir.
  - assert (Hsome' : is_Some (m !! (s ++ n :: u ++ [y]))).
    { unfold is_dir in Hdir. rewrite <- app_assoc in Hdir. cbn in Hdir.
      destruct (m !! (s ++ n :: u ++ [y])); [eauto | discriminate]. }
    clear Hdir Hsome. revert y Hsome'.
    induction u as [|z u IHu] using rev_ind; intros y Hsome'.
    + pose proof (Hr [n] y Hsome') as Hdir. unfold is_dir in Hdir.
      now rewrite Hfile in Hdir.
    + apply (IHu z). pose proof (Hr (n :: u ++ [z]) y Hsome') as Hdir.
      unfold is_dir in Hdir.
      destruct (m !! (s ++ n :: u ++ [z])); [eauto | discriminate].
Qed.

Section Counting.

Context (Q : path * node -> Prop) `{!forall kv, Decision (Q kv)}.


Lemma count_below_none (m : gmap path node) (s : path) :
  (forall k nd, m !! k = Some nd -> s `prefix_of` k -> ~ Q (k, nd)) ->
  count_below Q m s = O.
Proof.
  intros Hnone. unfold count_below.
  rewrite (map_empty_filter_2 _ m); [now rewrite map_to_list_empty|].
  intros k nd Hk [Hpre HQ]. now apply (Hnone k nd).
Qed.

Lemma count_below_single (m : gmap path node) (p : path) (nd : node) :
  m !! p = Some nd ->
  (forall k, p `prefix_of` k -> is_Some (m !! k) -> k = p) ->
  count_below Q m p = if decide (Q (p, nd)) then 1%nat else O.
Proof.
  intros Hp Honly. destruct (decide (Q (p, nd))) as [HQ|HQ].
  - unfold count_below.
    replace (filter (fun kv : path * node => p `prefix_of` kv.1 /\ Q kv) m)
      with ({[ p := nd ]} : gmap path node); [now rewrite map_to_list_singleton|].
    apply map_eq. intros k. destruct (decide (k = p)) as [->|Hne].
    + rewrite lookup_singleton_eq. symmetry. apply map_lookup_filter_Some. auto.
    + rewrite lookup_singleton_ne by congruence. symmetry.
      apply map_lookup_filter_None. right. intros nd' Hk [Hpre _].
      apply Hne. apply Honly; eauto.
  - apply count_below_none. intros k nd' Hk Hpre HQ'.
    assert (k = p) as -> by (apply Honly; eauto).
    rewrite Hp in Hk. injection Hk as <-. contradiction.
Qed.

(** The entries below the folders of a list, the folders having different
    names in one directory. *)
Lemma count_below_list (m : gmap path node) (s : path) (l : list directory_entry) :
  NoDup (entry_path <$> l) ->
  (forall e, e ∈ l -> exists n, entry_path e = s ++ [n]) ->
  length (map_to_list
            (filter (fun kv : path * node =>
                       Exists (fun e => entry_path e `prefix_of` kv.1) l /\ Q kv) m))
  = sum_list ((fun e => count_below Q m (entry_path e)) <$> l).
Proof.
  induction l as [|e l IH]; intros Hnd Hl.
  - rewrite (map_empty_filter_2 _ m); [now rewrite map_to_list_empty|].
    intros k nd _ [Hex _]. inversion Hex.
  - rewrite fmap_cons in Hnd. apply NoDup_cons in Hnd as [He Hnd].
    rewrite fmap_cons. cbn [sum_list_with]. unfold id at 1.
    rewrite <- IH; [|exact Hnd | intros e' He'; apply Hl; now right].
    unfold count_below. rewrite !length_map_to_list.
    rewrite <- map_size_disj_union.
    + f_equal. rewrite <- map_filter_or. apply map_filter_ext.
      intros k nd _. cbn [fst]. rewrite Exists_cons. tauto.
    + apply map_disjoint_spec. intros k x y Hx Hy.
      apply map_lookup_filter_Some in Hx as [_ [Hpre _]].
      apply map_lookup_filter_Some in Hy as [_ [Hex _]].
      cbn [fst] in Hpre, Hex. apply Exists_exists in Hex as (e' & He' & Hpre').
      apply He. apply list_elem_of_fmap. exists e'. split; [|exact He'].
      destruct (Hl e) as [n Hn]; [left|]. destruct (Hl e') as [n' Hn']; [now right|].
      rewrite Hn, Hn' in *. destruct Hpre as [u ->]. destruct Hpre' as [u' Hu'].
      rewrite <- !app_assoc in Hu'. apply app_inv_head in Hu'. cbn in Hu'. congruence.
Qed.

(** The count below a directory is the sum of the counts below its
    entries. *)
Lemma count_below_children (m : gmap path node) (s : path) (l : list directory_entry) :
  rooted m s ->
  (forall nd, m !! s = Some nd -> ~ Q (s, nd)) ->
  NoDup (entry_path <$> l) ->
  (forall e, e ∈ l <-> exists n nd, m !! (s ++ [n]) = Some nd
                                    /\ e = mkEntry (s ++ [n]) (status nd)) ->
  count_below Q m s = sum_list ((fun e => count_below Q m (entry_path e)) <$> l).
Proof.
  intros Hr Hs Hnd Hl.
  rewrite <- (count_below_list m s l Hnd).
  2:{ intros e He. apply Hl in He as (n & nd & _ & ->). now exists n. }
  unfold count_below. f_equal. f_equal. apply map_filter_ext.
  intros k nd Hk. cbn [fst]. split; intros [Hpre HQ]; (split; [|exact HQ]).
  - destruct Hpre as [[|n rel] ->].
    + rewrite app_nil_r in *. now apply Hs in HQ.
    + destruct (rooted_above m s n rel Hr) as [nd' Hnd']; [eauto|].
      apply Exists_exists. exists (mkEntry (s ++ [n]) (status nd')). split.
      * apply Hl. eauto.
      * cbn [entry_path]. exists rel. now rewrite <- app_assoc.
  - apply Exists_exists in Hpre as (e & He & Hpre).
    apply Hl in He as (n & nd' & _ & ->). cbn [entry_path] in Hpre.
    destruct Hpre as [u ->]. exists ([n] ++ u). now rewrite app_assoc.
Qed.

End Counting.

Lemma sum_list_zero (l : list nat) : Forall (eq O) l -> sum_list l = O.
Proof. induction 1 as [|x l <- _ IH]; [reflexivity | exact IH]. Qed.


Lemma failures_replicate (n : nat) : failures (replicate n LogLastError) = n.
Proof.
  unfold failures. induction n as [|n IH]; [reflexivity|].
  cbn [replicate]. rewrite filter_cons_True by reflexivity. cbn. now rewrite IH.
Qed.

(** ** When the target folder cannot be created: what is logged *)

Lemma regular_below_file (m : gmap path node) (s : path) n tm c :
  rooted m s -> m !! (s ++ [n]) = Some (File tm c) ->
  regular_below m (s ++ [n]) = 1%nat.
Proof.
  intros Hr Hfile. unfold regular_below.
  rewrite (count_below_single _ m (s ++ [n]) (File tm c) Hfile).
  - now rewrite decide_True.
  - intros k Hpre Hsome. now apply (rooted_file m s n tm c k).
Qed.

Lemma regular_below_children (m : gmap path node) (s : path) :
  rooted m s -> is_dir m s = true ->
  regular_below m s
  = sum_list ((fun e => regular_below m (entry_path e)) <$> children m s).
Proof.
  intros Hr Hs. unfold regular_below. apply count_below_children.
  - exact Hr.
  - intros nd Hnd. cbn [snd]. unfold is_dir in Hs. rewrite Hnd in Hs.
    destruct nd; [discriminate Hs | discriminate].
  - apply children_paths_NoDup.
  - intros e. apply children_spec.
Qed.

(** Every regular file below the source folder leaves one record of a
    failed copy, and nothing else happens. *)
Lemma CopyDirTo_without_target_log H fuel :
  forall (h : nat) (s t : path) w,
    (h < fuel)%nat -> bounded (files w) s h -> is_dir (files w) s = true ->
    rooted (files w) s ->
    (forall rel, files w !! (t ++ rel) = None) ->
    CreateDirectory_permitted H (files w) t = false ->
    CopyDirTo fuel H s t w
    = Ok (tt, mkWorld (files w)
                (log w ++ replicate (regular_below (files w) s) LogLastError)).
Proof.
  induction fuel as [|fuel IH]; intros h s t w Hh Hb Hs Hr Habsent Hperm; [lia|].
  rewrite CopyDirTo_enters_loop; [|exact Hs| |exact Hperm].
  2:{ specialize (Habsent []). now rewrite app_nil_r in Habsent. }
  rewrite (regular_below_children _ _ Hr Hs).
  assert (Hloop : forall l lg,
             (forall e, e ∈ l ->
                exists n nd, files w !! (s ++ [n]) = Some nd
                             /\ e = mkEntry (s ++ [n]) (status nd)) ->
             for_each l (CopyDirTo_body (CopyDirTo fuel H) H t) (mkWorld (files w) lg)
             = Ok (tt, mkWorld (files w)
                         (lg ++ replicate
                                  (sum_list ((fun e => regular_below (files w) (entry_path e))
                                               <$> l))
                                  LogLastError))).
  { induction l as [|e l IHl]; intros lg Hentries.
    - cbn. now rewrite app_nil_r.
    - destruct (Hentries e) as (n & nd & Hnd & ->); [left|].
      assert (Hbody :
                 CopyDirTo_body (CopyDirTo fuel H) H t (mkEntry (s ++ [n]) (status nd))
                   (mkWorld (files w) lg)
                 = Ok (tt, mkWorld (files w)
                             (lg ++ replicate (regular_below (files w) (s ++ [n]))
                                      LogLastError))).
      { unfold CopyDirTo_body. cbn [entry_type entry_path].
        destruct nd as [tm' c|tm']; cbn [status].
        - rewrite (regular_below_file _ _ _ _ _ Hr Hnd). cbn [replicate].
          apply (CopyDirTo_file_fails H t (mkEntry (s ++ [n]) regular) tm' c
                   (mkWorld (files w) lg) Hnd).
          + left. cbn [entry_path files]. rewrite filename_snoc. apply Habsent.
          + cbn [entry_path files]. rewrite filename_snoc.
            unfold CopyFile_permitted, path_append. rewrite parent_path_snoc.
            unfold is_dir at 1. specialize (Habsent []). rewrite app_nil_r in Habsent.
            rewrite Habsent. reflexivity.
        - rewrite filename_snoc.
          destruct (bounded_child _ _ n _ Hb) as [Hh1 Hbn]; [eauto|].
          apply (IH (h - 1)%nat (s ++ [n]) (t ++ [n]) (mkWorld (files w) lg));
            cbn [files log].
          + lia.
          + exact Hbn.
          + unfold is_dir. now rewrite Hnd.
          + now apply rooted_child.
          + intros rel. rewrite <- app_assoc. apply Habsent.
          + unfold CreateDirectory_permitted. rewrite parent_path_snoc.
            unfold is_dir. specialize (Habsent []). rewrite app_nil_r in Habsent.
            rewrite Habsent. now rewrite andb_false_r. }
      cbn [for_each]. unfold bind. rewrite Hbody. cbn [entry_path].
      rewrite IHl by (intros e' He'; apply Hentries; now right).
      rewrite fmap_cons. cbn [sum_list_with entry_path]. unfold id at 1.
      now rewrite replicate_add, app_assoc. }
  destruct w as [m lg]. cbn [files log] in *. apply Hloop.
  intros e He. now apply children_spec in He.
Qed.

(** C10. In a mirror step whose target folder does not exist and cannot be
    created, the value of [CreateDirectory] is not looked at: the step goes
    on to the loop over the entries of the source folder, and down into its
    subfolders. Every regular file below the source folder has its copy
    tried; each of these copies fails and leaves one [LOG_LAST_ERROR]
    record; nothing is created, nothing else is logged, and the step returns
    normally. [CopyToDirectory] then returns [S_OK], with the same
    records. *)
Theorem CopyDirTo_ignores_CreateDirectory_failure (H : host)
    (destination source : wstring) (cleanDest : bool) (w : world) :
  (forall (s t : path) wi,
      well_formed (files wi) -> is_dir (files wi) s = true ->
      files wi !! t = None -> CreateDirectory_permitted H (files wi) t = false ->
      exists fuel0 : nat, forall fuel : nat, (fuel0 <= fuel)%nat ->
        CopyDirTo fuel H s t wi
        = for_each (children (files wi) s)
            (CopyDirTo_body (CopyDirTo (pred fuel) H) H t) wi
        /\ CopyDirTo fuel H s t wi
           = Ok (tt, mkWorld (files wi)
                       (log wi ++ replicate (regular_below (files wi) s) LogLastError)))
  /\ ((~ exists rest, destination = (source ++ rest)%string) ->
      well_formed (files w) -> is_dir (files w) (to_path source) = true ->
      files w !! to_path destination = None ->
      CreateDirectory_permitted H (files w) (to_path destination) = false ->
      exists fuel0 : nat, forall fuel : nat, (fuel0 <= fuel)%nat ->
        CopyToDirectory fuel H destination source cleanDest w
        = Ok (S_OK, mkWorld (files w)
                      (log w ++ replicate (regular_below (files w) (to_path source))
                                  LogLastError))).
Proof.
  assert (Hstep : forall (s t : path) wi,
             well_formed (files wi) -> is_dir (files wi) s = true ->
             files wi !! t = None -> CreateDirectory_permitted H (files wi) t = false ->
             forall fuel : nat, (S (depth (files wi)) <= fuel)%nat ->
               CopyDirTo fuel H s t wi
               = for_each (children (files wi) s)
                   (CopyDirTo_body (CopyDirTo (pred fuel) H) H t) wi
               /\ CopyDirTo fuel H s t wi
                  = Ok (tt, mkWorld (files wi)
                              (log wi ++ replicate (regular_below (files wi) s)
                                           LogLastError))).
  { intros s t wi Hwf Hs Ht Hperm fuel Hfuel. split.
    - destruct fuel as [|fuel]; [lia|]. now apply CopyDirTo_enters_loop.
    - apply (CopyDirTo_without_target_log H fuel (depth (files wi)) s t wi);
        [lia | apply bounded_depth | exact Hs | now apply well_formed_rooted
        | now apply absent_below | exact Hperm]. }
  split.
  - intros s t wi Hwf Hs Ht Hperm. exists (S (depth (files wi))). now apply Hstep.
  - intros Hguard Hwf Hs Ht Hperm. exists (S (depth (files w))). intros fuel Hfuel.
    destruct (Hstep _ _ _ Hwf Hs Ht Hperm fuel Hfuel) as [_ Hrun].
    unfold CopyToDirectory.
    rewrite bool_decide_eq_false_2.
    2:{ intros Hfind. apply Hguard. now apply starts_with_spec, find_zero. }
    assert (Hclean : (if cleanDest then fs_exists (to_path destination) else ret false) w
                     = Ok (false, w)).
    { destruct cleanDest; [|reflexivity].
      unfold fs_exists. now rewrite (present_None _ _ Ht). }
    unfold bind at 1. rewrite Hclean. unfold bind. cbn [ret]. now rewrite Hrun.
Qed.

(** [C:\nowhere] does not exist, so [C:\nowhere\dst] cannot be created: the
    copies of [f1] and [sub\f2] are tried and fail. *)
Lemma CopyDirTo_ignores_CreateDirectory_failure_witness :
  regular_below (files disk0) (to_path "C:\src") = 2%nat
  /\ exists fuel0 : nat, forall fuel : nat, (fuel0 <= fuel)%nat ->
       CopyToDirectory fuel quiet "C:\nowhere\dst" "C:\src" false disk0
       = Ok (S_OK, mkWorld (files disk0)
                     (log disk0 ++ replicate (regular_below (files disk0) (to_path "C:\src"))
                                     LogLastError)).
Proof.
  split; [vm_compute; reflexivity|].
  apply (proj2 (CopyDirTo_ignores_CreateDirectory_failure quiet
                  "C:\nowhere\dst" "C:\src" false disk0)).
  - intros [rest Hrest]. discriminate Hrest.
  - apply (bool_decide_unpack (well_formed (files disk0))). vm_compute. exact I.
  - reflexivity.
  - reflexivity.
  - reflexivity.
Defined.


(** ** The synchronizer on the sample tree *)

(** Into a cleaned destination: the stray file is gone, [f1] and [sub\f2]
    are there with the source's bytes and times. *)
Example CopyToDirectory_clean_run :
  exists w', CopyToDirectory 3 quiet "C:\dst" "C:\src" true disk0 = Ok (S_OK, w')
             /\ files w' !! ["C:"; "dst"; "stray"] = None
             /\ files w' !! ["C:"; "dst"; "f1"] = Some (File 10 "new f1")
             /\ files w' !! ["C:"; "dst"; "sub"; "f2"] = Some (File 10 "f2").
Proof.
  eexists. split; [vm_compute; reflexivity|].
  split; [reflexivity|]. split; reflexivity.
Qed.

(** A second run with the source unchanged copies nothing and logs nothing. *)
Example CopyToDirectory_second_run :
  exists w', CopyToDirectory 3 quiet "C:\dst" "C:\src" false disk0 = Ok (S_OK, w')
             /\ CopyToDirectory 3 quiet "C:\dst" "C:\src" false w' = Ok (S_OK, w').
Proof.
  eexists. split; vm_compute; reflexivity.
Qed.

(** A destination below the source is refused. *)
Example CopyToDirectory_into_itself :
  CopyToDirectory 3 quiet "C:\src\sub" "C:\src" true disk0 = Ok (E_FAIL, disk0).
Proof. reflexivity. Qed.

(** * Further properties of the queries *)

Lemma size_to_nat r : 0 <= r -> Z.of_nat (Z.to_nat r) = r.
Proof. lia. Qed.

Lemma ExpandEnvironmentVariables_loop_outcome K str fuel :
  forall buf r st,
    0 <= r ->
    match ExpandEnvironmentVariables_loop fuel K str buf r st with
    | Ok ((e, r'), st') =>
        size e = r' /\ 1 <= r' < 2 ^ 32 /\ (ticks st < ticks st')%nat
        /\ r' = wrap32 (r_ret (k_ExpandEnvironmentStringsW K (pred (ticks st')) str r'))
    | Throw e => exists code, e = system_error code "ExpandEnvironmentVariables"
    | OutOfFuel => True
    end.
Proof.
  induction fuel as [|fuel IH]; intros buf r st Hr; [exact I|].
  cbn [ExpandEnvironmentVariables_loop].
  unfold bind, ExpandEnvironmentStringsW, call, GetLastError, ret, throw.
  cbn [option_map data].
  set (rep := k_ExpandEnvironmentStringsW K (ticks st) str r).
  pose proof (wrap32_range (r_ret rep)) as Hrange.
  destruct (wrap32 (r_ret rep) =? 0) eqn:Hz; [eauto|].
  apply Z.eqb_neq in Hz.
  rewrite size_store, size_resize, size_to_nat by exact Hr.
  destruct (r =? wrap32 (r_ret rep)) eqn:Hex; cbn [negb].
  - apply Z.eqb_eq in Hex. cbn [after_call ticks pred]. fold rep.
    rewrite size_store, size_resize, size_to_nat by exact Hr.
    repeat split; try lia. subst rep. now rewrite <- Hex.
  - specialize (IH (store (String.substring 0 (Z.to_nat r) (r_out rep))
                      (resize (Z.to_nat r) buf))
                   (wrap32 (r_ret rep)) (after_call rep st)).
    destruct (ExpandEnvironmentVariables_loop fuel K str _ _ _)
      as [[[e r'] st']| |]; [|apply IH; lia|exact I].
    cbn [after_call ticks] in IH. destruct IH as (? & ? & ? & ?); [lia|].
    repeat split; auto; lia.
Qed.

(** X1. Whatever kernel32 answers, a string that
    [ExpandEnvironmentVariables] returns is one character shorter than the
    size reported by the last call, which was made, after the probe, with a
    buffer of exactly that size. *)
Theorem ExpandEnvironmentVariables_result_length (fuel : nat) (K : kernel32)
    (str : wstring) (st : thread) (v : wstring) (st' : thread) :
  ExpandEnvironmentVariables fuel K str st = Ok (v, st') ->
  (ticks st + 2 <= ticks st')%nat
  /\ size v + 1
     = wrap32 (r_ret (k_ExpandEnvironmentStringsW K (pred (ticks st')) str
                        (size v + 1))).
Proof.
  unfold ExpandEnvironmentVariables, bind, ExpandEnvironmentStringsW, call,
    GetLastError, ret, throw; cbn beta iota.
  set (r := k_ExpandEnvironmentStringsW K (ticks st) str 0).
  pose proof (wrap32_range (r_ret r)) as Hrange.
  pose proof (ExpandEnvironmentVariables_loop_outcome K str fuel ""
                (wrap32 (r_ret r)) (after_call r st) ltac:(lia)) as Hloop.
  destruct (wrap32 (r_ret r) =? 0); cbn beta iota; [discriminate|].
  destruct (ExpandEnvironmentVariables_loop fuel K str _ _ _)
    as [[[e' r'] st2]|x|]; try discriminate.
  intros [= <- <-]. destruct Hloop as (Hsize & Hr' & Hlt & Hlast).
  cbn [after_call ticks] in Hlt.
  rewrite size_resize, wrap32_small, size_to_nat by lia.
  split; [lia|]. replace (r' - 1 + 1) with r' by lia. exact Hlast.
Qed.

Lemma ExpandEnvironmentVariables_result_length_witness :
  ExpandEnvironmentVariables 3 steady_kernel "X" thread0 = Ok ("abcd", mkThread 3 0)
  /\ (ticks thread0 + 2 <= 3)%nat
  /\ size "abcd" + 1
     = wrap32 (r_ret (k_ExpandEnvironmentStringsW steady_kernel (pred 3) "X"
                        (size "abcd" + 1))).
Proof.
  split; [reflexivity|].
  apply (ExpandEnvironmentVariables_result_length 3 steady_kernel "X" thread0
           "abcd" (mkThread 3 0)).
  reflexivity.
Defined.


(** ** GetEnvironmentVariableValue *)





(** ** GetCurrentDirectoryValue *)

Lemma wrap32_succ_eq r r' :
  1 <= r -> 0 <= r' < 2 ^ 32 -> r = wrap32 (r' + 1) -> r = r' + 1.
Proof.
  intros Hr Hr' Hex.
  destruct (Z.eq_dec (r' + 1) (2 ^ 32)) as [Heq|Hne].
  - rewrite Heq in Hex. unfold wrap32 in Hex. rewrite Z.mod_same in Hex by lia. lia.
  - rewrite wrap32_small in Hex by lia. exact Hex.
Qed.

Lemma GetCurrentDirectoryValue_loop_outcome K fuel :
  forall buf r st,
    1 <= r ->
    match GetCurrentDirectoryValue_loop fuel K buf r st with
    | Ok ((e, r'), st') =>
        size e = r' + 1 /\ 1 <= r' /\ (ticks st < ticks st')%nat
        /\ r' = wrap32 (r_ret (k_GetCurrentDirectory K (pred (ticks st')) (r' + 1)))
    | Throw e => exists code, e = system_error code "GetCurrentDirectory"
    | OutOfFuel => True
    end.
Proof.
  induction fuel as [|fuel IH]; intros buf r st Hr; [exact I|].
  cbn [GetCurrentDirectoryValue_loop].
  unfold bind, GetCurrentDirectory, call, GetLastError, ret, throw.
  cbn [option_map data].
  set (rep := k_GetCurrentDirectory K (ticks st) r).
  pose proof (wrap32_range (r_ret rep)) as Hrange.
  destruct (wrap32 (r_ret rep) =? 0) eqn:Hz; [eauto|].
  apply Z.eqb_neq in Hz.
  rewrite size_store, size_resize, size_to_nat by lia.
  destruct (r =? wrap32 (wrap32 (r_ret rep) + 1)) eqn:Hex; cbn [negb].
  - apply Z.eqb_eq in Hex.
    pose proof (wrap32_succ_eq r (wrap32 (r_ret rep)) Hr Hrange Hex) as Hsucc.
    cbn [after_call ticks pred]. fold rep.
    rewrite size_store, size_resize, size_to_nat by lia.
    repeat split; try lia. subst rep. now rewrite <- Hsucc.
  - specialize (IH (store (String.substring 0 (Z.to_nat r) (r_out rep))
                      (resize (Z.to_nat r) buf))
                   (wrap32 (r_ret rep)) (after_call rep st)).
    destruct (GetCurrentDirectoryValue_loop fuel K _ _ _)
      as [[[e r'] st']|x|]; [|apply IH; lia|exact I].
    cbn [after_call ticks] in IH. destruct IH as (? & ? & ? & ?); [lia|].
    repeat split; auto; lia.
Qed.

(** X3. Whatever kernel32 answers, [GetCurrentDirectoryValue] never returns
    the empty string: a string it returns has the length reported by the
    last call, which is not zero, and that call was made, after the probe,
    with a buffer one character longer. *)
Theorem GetCurrentDirectoryValue_never_empty (fuel : nat) (K : kernel32) (st : thread)
    (v : wstring) (st' : thread) :
  GetCurrentDirectoryValue fuel K st = Ok (v, st') ->
  v <> EmptyString
  /\ (ticks st + 2 <= ticks st')%nat
  /\ size v
     = wrap32 (r_ret (k_GetCurrentDirectory K (pred (ticks st')) (size v + 1))).
Proof.
  unfold GetCurrentDirectoryValue, bind, GetCurrentDirectory, call,
    GetLastError, ret, throw; cbn beta iota.
  set (r := k_GetCurrentDirectory K (ticks st) 0).
  pose proof (wrap32_range (r_ret r)) as Hrange.
  destruct (wrap32 (r_ret r) =? 0) eqn:Hz; cbn beta iota; [discriminate|].
  apply Z.eqb_neq in Hz.
  pose proof (GetCurrentDirectoryValue_loop_outcome K fuel ""
                (wrap32 (r_ret r)) (after_call r st) ltac:(lia)) as Hloop.
  destruct (GetCurrentDirectoryValue_loop fuel K _ _ _)
    as [[[e' r'] st2]|x|]; try discriminate.
  intros [= <- <-]. destruct Hloop as (Hsize & Hr' & Hlt & Hlast).
  cbn [after_call ticks] in Hlt.
  rewrite size_resize, size_to_nat by lia.
  split; [|split; [lia | exact Hlast]].
  intros Hempty. apply (f_equal size) in Hempty.
  rewrite size_resize, size_to_nat in Hempty by lia. change (size "") with 0 in Hempty. lia.
Qed.

Lemma GetCurrentDirectoryValue_never_empty_witness :
  GetCurrentDirectoryValue 3 steady_kernel thread0 = Ok ("C:\", mkThread 2 0)
  /\ "C:\" <> EmptyString
  /\ (ticks thread0 + 2 <= 2)%nat
  /\ size "C:\"
     = wrap32 (r_ret (k_GetCurrentDirectory steady_kernel (pred 2) (size "C:\" + 1))).
Proof.
  split; [reflexivity|].
  apply (GetCurrentDirectoryValue_never_empty 3 steady_kernel thread0
           "C:\" (mkThread 2 0)).
  reflexivity.
Defined.


(** ** GetDllDirectoryValue *)

Lemma GetDllDirectoryValue_loop_outcome K fuel :
  forall buf r st,
    0 <= r ->
    match GetDllDirectoryValue_loop fuel K buf r st with
    | Ok ((e, r'), st') =>
        size e = wrap32 (r' + 1) /\ 0 <= r' < 2 ^ 32 /\ (ticks st < ticks st')%nat
        /\ r' = wrap32 (r_ret (k_GetDllDirectory K (pred (ticks st')) (size e)))
        /\ (r' = 0 -> last_error st' = ERROR_SUCCESS)
    | Throw e => exists code, code <> ERROR_SUCCESS
                              /\ e = system_error code "GetDllDirectory"
    | OutOfFuel => True
    end.
Proof.
  induction fuel as [|fuel IH]; intros buf r st Hr; [exact I|].
  cbn [GetDllDirectoryValue_loop].
  unfold bind, GetDllDirectory, call, GetLastError, ret, throw.
  cbn [option_map data].
  set (rep := k_GetDllDirectory K (ticks st) r).
  pose proof (wrap32_range (r_ret rep)) as Hrange.
  destruct ((wrap32 (r_ret rep) =? 0)
            && negb (last_error (after_call rep st) =? ERROR_SUCCESS)) eqn:Hz.
  { apply andb_true_iff in Hz as [_ He]. apply negb_true_iff, Z.eqb_neq in He. eauto. }
  rewrite size_store, size_resize, size_to_nat by lia.
  destruct (r =? wrap32 (wrap32 (r_ret rep) + 1)) eqn:Hex; cbn [negb].
  - apply Z.eqb_eq in Hex. cbn [after_call ticks pred last_error] in Hz |- *.
    rewrite size_store, size_resize, size_to_nat by lia. fold rep.
    split; [exact Hex|]. split; [lia|]. split; [cbn; lia|]. split; [reflexivity|].
    intros Hzero. rewrite Hzero in Hz. cbn [Z.eqb andb] in Hz.
    now apply negb_false_iff, Z.eqb_eq in Hz.
  - specialize (IH (store (String.substring 0 (Z.to_nat r) (r_out rep))
                      (resize (Z.to_nat r) buf))
                   (wrap32 (r_ret rep)) (after_call rep st)).
    destruct (GetDllDirectoryValue_loop fuel K _ _ _)
      as [[[e r'] st']|x|]; [|apply IH; lia|exact I].
    cbn [after_call ticks] in IH. destruct IH as (? & ? & ? & ? & ?); [lia|].
    repeat split; auto; lia.
Qed.

(** X4. Whatever kernel32 answers, [GetDllDirectoryValue] returns the empty
    string only with the last error at [ERROR_SUCCESS]; a string returned
    after the probe has the length reported by the last call; and what the
    function does is the same whatever last error the thread had when it
    was called, that value being reset first. *)
Theorem GetDllDirectoryValue_result_length (fuel : nat) (K : kernel32) (st : thread)
    (stale : DWORD) (v : wstring) (st' : thread) :
  GetDllDirectoryValue fuel K st = Ok (v, st') ->
  (v = EmptyString -> last_error st' = ERROR_SUCCESS)
  /\ (v = EmptyString /\ ticks st' = S (ticks st)
      \/ (ticks st + 2 <= ticks st')%nat
         /\ size v
            = wrap32 (r_ret (k_GetDllDirectory K (pred (ticks st'))
                               (wrap32 (size v + 1)))))
  /\ GetDllDirectoryValue fuel K (mkThread (ticks st) stale) = Ok (v, st').
Proof.
  intros Hrun.
  assert (Hstale : GetDllDirectoryValue fuel K (mkThread (ticks st) stale)
                   = GetDllDirectoryValue fuel K st) by reflexivity.
  rewrite Hstale, Hrun. clear Hstale.
  split; [|split; [|reflexivity]]; revert Hrun;
    unfold GetDllDirectoryValue, bind, SetLastError, GetDllDirectory, call,
      GetLastError, ret, throw; cbn beta iota; cbn [ticks];
    set (st0 := mkThread (ticks st) ERROR_SUCCESS);
    set (r := k_GetDllDirectory K (ticks st) 0);
    pose proof (wrap32_range (r_ret r)) as Hrange;
    pose proof (GetDllDirectoryValue_loop_outcome K fuel ""
                  (wrap32 (r_ret r)) (after_call r st0) ltac:(lia)) as Hloop.
  - destruct (wrap32 (r_ret r) =? 0) eqn:Hz; cbn beta iota.
    { destruct (last_error (after_call r st0) =? ERROR_SUCCESS) eqn:He; cbn [negb];
        [|discriminate].
      apply Z.eqb_eq in He. intros [= <- <-]. auto. }
    destruct (GetDllDirectoryValue_loop fuel K _ _ _) as [[[e' r'] st2]|x|];
      try discriminate.
    intros [= <- <-]. destruct Hloop as (Hsize & Hr' & Hlt & Hlast & Herr).
    intros Hempty. apply Herr. apply (f_equal size) in Hempty.
    rewrite size_resize, size_to_nat in Hempty by lia. exact Hempty.
  - destruct (wrap32 (r_ret r) =? 0) eqn:Hz; cbn beta iota.
    { destruct (last_error (after_call r st0) =? ERROR_SUCCESS) eqn:He; cbn [negb];
        [|discriminate].
      intros [= <- <-]. left. split; reflexivity. }
    destruct (GetDllDirectoryValue_loop fuel K _ _ _) as [[[e' r'] st2]|x|];
      try discriminate.
    intros [= <- <-]. destruct Hloop as (Hsize & Hr' & Hlt & Hlast & Herr).
    cbn [after_call ticks st0] in Hlt.
    rewrite size_resize, size_to_nat by lia.
    right. split; [lia|]. rewrite <- Hsize. exact Hlast.
Qed.

Lemma GetDllDirectoryValue_result_length_witness :
  GetDllDirectoryValue 3 no_dll_directory thread0 = Ok (EmptyString, mkThread 1 0)
  /\ (EmptyString = EmptyString -> last_error (mkThread 1 0) = ERROR_SUCCESS)
  /\ (EmptyString = EmptyString /\ ticks (mkThread 1 0) = S (ticks thread0)
      \/ (ticks thread0 + 2 <= 1)%nat
         /\ size EmptyString
            = wrap32 (r_ret (k_GetDllDirectory no_dll_directory
                               (pred (ticks (mkThread 1 0)))
                               (wrap32 (size EmptyString + 1)))))
  /\ GetDllDirectoryValue 3 no_dll_directory (mkThread (ticks thread0) 203)
     = Ok (EmptyString, mkThread 1 0).
Proof.
  split; [reflexivity|].
  apply (GetDllDirectoryValue_result_length 3 no_dll_directory thread0 203
           EmptyString (mkThread 1 0)).
  reflexivity.
Defined.


(** Once [GetDllDirectory] returns zero without setting the last error, on
    a buffer that is not one character long, the loop cannot end while the
    facility keeps answering so: the buffer is resized to nothing, and its
    size is compared with 1. *)
Lemma GetDllDirectoryValue_loop_spins K fuel :
  forall buf r st,
    0 <= r -> r <> 1 -> last_error st = ERROR_SUCCESS ->
    (forall t n, (ticks st <= t)%nat ->
                 wrap32 (r_ret (k_GetDllDirectory K t n)) = 0
                 /\ r_err (k_GetDllDirectory K t n) = None) ->
    GetDllDirectoryValue_loop fuel K buf r st = OutOfFuel.
Proof.
  induction fuel as [|fuel IH]; intros buf r st Hr Hone Herr Hzero; [reflexivity|].
  cbn [GetDllDirectoryValue_loop].
  unfold bind, GetDllDirectory, call, GetLastError, ret, throw.
  cbn [option_map data].
  destruct (Hzero (ticks st) r ltac:(lia)) as [Hret Hnone].
  set (rep := k_GetDllDirectory K (ticks st) r) in *.
  assert (Hafter : last_error (after_call rep st) = ERROR_SUCCESS).
  { unfold after_call. cbn [last_error]. now rewrite Hnone. }
  rewrite Hret, Hafter. cbn [Z.eqb ERROR_SUCCESS negb andb].
  rewrite size_store, size_resize, size_to_nat by lia.
  change (wrap32 (0 + 1)) with 1.
  apply Z.eqb_neq in Hone. rewrite Hone. cbn [negb].
  apply IH; [lia | lia | exact Hafter |].
  intros t n Ht. apply Hzero. cbn [after_call ticks] in Ht. lia.
Qed.

(** X5. [GetDllDirectoryValue] does not return when the probe reports a
    size other than 0 and 1 and every later call returns zero without
    setting the last error (the directory was there at the probe and is gone
    afterwards): the first turn of the loop leaves a requested size of zero,
    and from then on an empty buffer is compared with a size of 1, whatever
    the number of turns. *)
Theorem GetDllDirectoryValue_spins (fuel : nat) (K : kernel32) (st : thread) :
  let r := k_GetDllDirectory K (ticks st) 0 in
  1 < wrap32 (r_ret r) ->
  r_err r = None ->
  (forall t n, (ticks st < t)%nat ->
               wrap32 (r_ret (k_GetDllDirectory K t n)) = 0
               /\ r_err (k_GetDllDirectory K t n) = None) ->
  GetDllDirectoryValue fuel K st = OutOfFuel.
Proof.
  intros r Hr Hnone Hzero.
  unfold GetDllDirectoryValue, bind, SetLastError, GetDllDirectory, call,
    GetLastError, ret, throw; cbn beta iota.
  cbn [ticks]. fold r.
  destruct (wrap32 (r_ret r) =? 0) eqn:Hz; [lia|]. cbn beta iota.
  rewrite GetDllDirectoryValue_loop_spins; [reflexivity | lia | lia | |].
  - unfold after_call. cbn [last_error]. now rewrite Hnone.
  - intros t n Ht. apply Hzero. cbn [after_call ticks] in Ht. lia.
Qed.

Lemma GetDllDirectoryValue_spins_witness :
  GetDllDirectoryValue 1000 cleared_dll_directory thread0 = OutOfFuel.
Proof.
  apply (GetDllDirectoryValue_spins 1000 cleared_dll_directory thread0).
  - vm_compute. reflexivity.
  - reflexivity.
  - intros [|t] n Ht; [cbn in Ht; lia|]. split; reflexivity.
Defined.

(** ** No bound on the retries *)

Lemma ExpandEnvironmentVariables_loop_chases
    (expansion : nat -> wstring -> wstring)
    (variable : nat -> wstring -> option wstring)
    (current_directory dll_directory : nat -> wstring) (str : wstring) (fuel : nat) :
  forall buf r st,
    0 <= r < 2 ^ 32 ->
    r <> size (expansion (ticks st) str) + 1 ->
    (forall t, (ticks st <= t < ticks st + fuel)%nat ->
               size (expansion t str) + 1 < 2 ^ 32
               /\ size (expansion (S t) str) <> size (expansion t str)) ->
    ExpandEnvironmentVariables_loop fuel
      (documented expansion variable current_directory dll_directory) str buf r st
    = OutOfFuel.
Proof.
  induction fuel as [|fuel IH]; intros buf r st Hr Hne Hchange; [reflexivity|].
  destruct (Hchange (ticks st) ltac:(lia)) as [Hv Hnext].
  pose proof (size_nonneg (expansion (ticks st) str)) as Hnn.
  rewrite ExpandEnvironmentVariables_loop_turn by assumption. cbn zeta.
  apply Z.eqb_neq in Hne. rewrite Hne.
  apply IH; cbn [next ticks].
  - lia.
  - lia.
  - intros t Ht. apply Hchange. lia.
Qed.

(** X18. The retry loop has no bound of its own: against a kernel32 that
    behaves as documented and whose expansion has another length at every
    call, [ExpandEnvironmentVariables] is still resizing its buffer after any
    number of turns. It ends only once two calls in a row report the same
    size. *)
Theorem ExpandEnvironmentVariables_no_retry_bound
    (expansion : nat -> wstring -> wstring)
    (variable : nat -> wstring -> option wstring)
    (current_directory dll_directory : nat -> wstring)
    (str : wstring) (fuel : nat) (st : thread) :
  let K := documented expansion variable current_directory dll_directory in
  (forall t, (ticks st <= t <= ticks st + fuel)%nat ->
             size (expansion t str) + 1 < 2 ^ 32
             /\ size (expansion (S t) str) <> size (expansion t str)) ->
  ExpandEnvironmentVariables fuel K str st = OutOfFuel.
Proof.
  intros K Hchange. subst K.
  destruct (Hchange (ticks st) ltac:(lia)) as [Hv Hnext].
  pose proof (size_nonneg (expansion (ticks st) str)) as Hnn.
  unfold ExpandEnvironmentVariables, bind, ExpandEnvironmentStringsW, call, ret.
  cbn [documented k_ExpandEnvironmentStringsW expansion_reply r_ret r_out].
  rewrite wrap32_small by lia.
  destruct (size (expansion (ticks st) str) + 1 =? 0) eqn:Hz; [lia|].
  change (after_call _ st) with (next st).
  rewrite ExpandEnvironmentVariables_loop_chases; [reflexivity | lia | |].
  - cbn [next ticks]. lia.
  - intros t Ht. cbn [next ticks] in Ht. apply Hchange. lia.
Qed.

Lemma size_letters n : size (letters n) = Z.of_nat n.
Proof.
  unfold size. f_equal. induction n as [|n IH]; cbn; [reflexivity | now rewrite IH].
Qed.

Lemma ExpandEnvironmentVariables_no_retry_bound_witness :
  ExpandEnvironmentVariables 1000 lengthening_kernel "X" thread0 = OutOfFuel.
Proof.
  apply (ExpandEnvironmentVariables_no_retry_bound (fun t _ => letters t) growing
           moving_directory moving_dll_directory "X" 1000 thread0).
  intros t Ht. cbn [ticks thread0] in Ht. rewrite !size_letters. lia.
Defined.

(** ** The directory queries under a kernel32 that behaves as documented *)

Section Directories.

Variable expansion : nat -> wstring -> wstring.
Variable variable : nat -> wstring -> option wstring.
Variables current_directory dll_directory : nat -> wstring.

Let K := documented expansion variable current_directory dll_directory.

Lemma store_nothing r b : store (String.substring 0 (Z.to_nat r) "") b = b.
Proof. destruct (Z.to_nat r); destruct b; reflexivity. Qed.

Lemma size_zero v : size v = 0 -> v = EmptyString.
Proof. destruct v; [reflexivity | unfold size; cbn; lia]. Qed.

Lemma trimmed v r buf :
  r = size v + 1 ->
  resize (Z.to_nat (size v)) (store (terminated v) (resize (Z.to_nat r) buf)) = v.
Proof.
  intros ->. unfold size at 1. rewrite Nat2Z.id.
  apply resize_store_terminated. rewrite length_resize. unfold size. lia.
Qed.

(** One turn of the loop of [GetCurrentDirectoryValue]. *)
Lemma GetCurrentDirectoryValue_loop_turn fuel buf r st :
  0 < r < 2 ^ 32 ->
  size (current_directory (ticks st)) + 1 < 2 ^ 32 ->
  GetCurrentDirectoryValue_loop (S fuel) K buf r st =
  let v := current_directory (ticks st) in
  if size v + 1 <=? r then
    if size v =? 0 then Throw (system_error (last_error st) "GetCurrentDirectory")
    else if r =? size v + 1 then
      Ok ((store (terminated v) (resize (Z.to_nat r) buf), size v), next st)
    else
      GetCurrentDirectoryValue_loop fuel K
        (store (terminated v) (resize (Z.to_nat r) buf)) (size v) (next st)
  else
    GetCurrentDirectoryValue_loop fuel K (resize (Z.to_nat r) buf) (size v + 1) (next st).
Proof.
  intros Hr Hv. cbn zeta.
  cbn [GetCurrentDirectoryValue_loop].
  unfold bind, GetCurrentDirectory, call, GetLastError, ret, throw.
  cbn [K documented k_GetCurrentDirectory].
  set (v := current_directory (ticks st)) in *.
  pose proof (size_nonneg v) as Hnn.
  unfold value_reply.
  destruct (size v + 1 <=? r) eqn:Hfit; cbn [r_ret r_out r_err option_map data].
  - apply Z.leb_le in Hfit.
    rewrite stored_terminated by lia.
    rewrite wrap32_small by lia.
    change (after_call {| r_ret := size v; r_err := None; r_out := terminated v |} st)
      with (next st).
    destruct (size v =? 0) eqn:Hz; [reflexivity|].
    rewrite size_store, size_resize, Z2Nat.id by lia.
    rewrite wrap32_small by lia.
    destruct (r =? size v + 1); reflexivity.
  - apply Z.leb_gt in Hfit.
    rewrite wrap32_small by lia.
    change (after_call {| r_ret := size v + 1; r_err := None; r_out := "" |} st)
      with (next st).
    destruct (size v + 1 =? 0) eqn:Hz; [lia|].
    rewrite store_nothing, size_resize, Z2Nat.id by lia.
    assert (Hnot : (r =? wrap32 (size v + 1 + 1)) = false).
    { apply Z.eqb_neq. unfold wrap32.
      destruct (Z.eq_dec (size v + 1 + 1) (2 ^ 32)) as [->|Hne].
      - rewrite Z.mod_same by lia. lia.
      - rewrite Z.mod_small by lia. lia. }
    rewrite Hnot. reflexivity.
Qed.

(** One turn of the loop of [GetDllDirectoryValue], the last error being
    [ERROR_SUCCESS]; the requested size may be zero. *)
Lemma GetDllDirectoryValue_loop_turn fuel buf r st :
  0 <= r < 2 ^ 32 ->
  last_error st = ERROR_SUCCESS ->
  size (dll_directory (ticks st)) + 2 < 2 ^ 32 ->
  GetDllDirectoryValue_loop (S fuel) K buf r st =
  let v := dll_directory (ticks st) in
  if size v + 1 <=? r then
    if r =? size v + 1 then
      Ok ((store (terminated v) (resize (Z.to_nat r) buf), size v), next st)
    else
      GetDllDirectoryValue_loop fuel K
        (store (terminated v) (resize (Z.to_nat r) buf)) (size v) (next st)
  else
    GetDllDirectoryValue_loop fuel K (resize (Z.to_nat r) buf) (size v + 1) (next st).
Proof.
  intros Hr Herr Hv. cbn zeta.
  cbn [GetDllDirectoryValue_loop].
  unfold bind, GetDllDirectory, call, GetLastError, ret, throw.
  cbn [K documented k_GetDllDirectory].
  set (v := dll_directory (ticks st)) in *.
  pose proof (size_nonneg v) as Hnn.
  unfold value_reply.
  destruct (size v + 1 <=? r) eqn:Hfit; cbn [r_ret r_out r_err option_map data].
  - apply Z.leb_le in Hfit.
    rewrite stored_terminated by lia.
    rewrite wrap32_small by lia.
    change (after_call {| r_ret := size v; r_err := None; r_out := terminated v |} st)
      with (next st).
    cbn [next last_error]. rewrite Herr. cbn [Z.eqb ERROR_SUCCESS negb].
    rewrite andb_false_r.
    rewrite size_store, size_resize, Z2Nat.id by lia.
    rewrite wrap32_small by lia.
    destruct (r =? size v + 1); reflexivity.
  - apply Z.leb_gt in Hfit.
    rewrite wrap32_small by lia.
    change (after_call {| r_ret := size v + 1; r_err := None; r_out := "" |} st)
      with (next st).
    cbn [next last_error]. rewrite Herr. cbn [Z.eqb ERROR_SUCCESS negb].
    rewrite andb_false_r.
    rewrite store_nothing, size_resize, Z2Nat.id by lia.
    rewrite wrap32_small by lia.
    destruct (r =? size v + 1 + 1) eqn:Hex; [lia|]. reflexivity.
Qed.

Lemma read_at_next value st o : read_at value (next st) o -> read_at value st o.
Proof.
  intros (e & r' & st' & -> & Hlt & Hr & Hres). exists e, r', st'.
  cbn [next ticks] in Hlt. repeat split; auto; lia.
Qed.

Section Current_directory.

Hypothesis Hset : forall t, current_directory t <> EmptyString.
Hypothesis Hrange : forall t, size (current_directory t) + 1 < 2 ^ 32.

Let loop := GetCurrentDirectoryValue_loop.

Let ends := read_at current_directory.

Lemma size_set t : 0 < size (current_directory t).
Proof.
  pose proof (size_nonneg (current_directory t)).
  destruct (Z.eq_dec (size (current_directory t)) 0) as [Hz|]; [|lia].
  now apply size_zero, Hset in Hz.
Qed.

Lemma current_directory_from_needed buf st :
  ends st (loop 1%nat K buf (size (current_directory (ticks st)) + 1) st).
Proof.
  pose proof (size_set (ticks st)) as Hpos. pose proof (Hrange (ticks st)) as Hv.
  unfold loop. rewrite GetCurrentDirectoryValue_loop_turn by lia. cbn zeta.
  destruct (_ + 1 <=? _ + 1) eqn:Hfit; [|lia].
  destruct (size (current_directory (ticks st)) =? 0) eqn:Hz; [lia|].
  rewrite Z.eqb_refl. eexists _, _, _. split; [reflexivity|].
  cbn [next ticks pred]. split; [lia|]. split; [lia|]. now apply trimmed.
Qed.

Lemma current_directory_from_small buf st r :
  0 < r < size (current_directory (ticks st)) + 1 ->
  current_directory (S (ticks st)) = current_directory (ticks st) ->
  ends st (loop 2%nat K buf r st).
Proof.
  intros Hr Hsame. pose proof (Hrange (ticks st)) as Hv.
  unfold loop. rewrite GetCurrentDirectoryValue_loop_turn by lia. cbn zeta.
  destruct (_ + 1 <=? r) eqn:Hfit; [lia|].
  apply read_at_next. rewrite <- Hsame.
  apply (current_directory_from_needed _ (next st)).
Qed.

Lemma GetCurrentDirectoryValue_loop_converges (k : nat) :
  forall st buf r,
    0 < r < 2 ^ 32 ->
    steady current_directory (ticks st + k) ->
    exists fuel, ends st (loop fuel K buf r st).
Proof.
  induction k as [|k IH]; intros st buf r Hr Hsteady.
  - rewrite Nat.add_0_r in Hsteady.
    pose proof (size_set (ticks st)) as Hpos. pose proof (Hrange (ticks st)) as Hv.
    assert (Hsame1 : current_directory (S (ticks st)) = current_directory (ticks st)).
    { apply Hsteady. lia. }
    assert (Hsame2 : current_directory (S (S (ticks st))) = current_directory (S (ticks st))).
    { rewrite Hsame1. apply Hsteady. lia. }
    destruct (Z_lt_le_dec r (size (current_directory (ticks st)) + 1)) as [Hsmall|Hfits].
    { exists 2%nat. apply current_directory_from_small; auto with lia. }
    destruct (Z.eq_dec r (size (current_directory (ticks st)) + 1)) as [->|Hbig].
    { exists 1%nat. apply current_directory_from_needed. }
    exists 3%nat. unfold loop. rewrite GetCurrentDirectoryValue_loop_turn by lia. cbn zeta.
    destruct (_ + 1 <=? r) eqn:Hfit; [|lia].
    destruct (size (current_directory (ticks st)) =? 0) eqn:Hz; [lia|].
    apply Z.eqb_neq in Hbig. rewrite Hbig.
    apply read_at_next. rewrite <- Hsame1 at 2.
    apply (current_directory_from_small _ (next st)); cbn [next ticks].
    + rewrite Hsame1. lia.
    + exact Hsame2.
  - assert (Hsteady' : steady current_directory (ticks (next st) + k)).
    { cbn [next ticks].
      replace (S (ticks st) + k)%nat with (ticks st + S k)%nat by lia. exact Hsteady. }
    pose proof (size_set (ticks st)) as Hpos. pose proof (Hrange (ticks st)) as Hv.
    destruct (Z.eq_dec r (size (current_directory (ticks st)) + 1)) as [->|Hbig].
    { exists 1%nat. apply current_directory_from_needed. }
    destruct (Z_lt_le_dec r (size (current_directory (ticks st)) + 1)) as [Hsmall|Hfits].
    + destruct (IH (next st) (resize (Z.to_nat r) buf)
                  (size (current_directory (ticks st)) + 1)) as [fuel Hfuel];
        [lia | exact Hsteady' |].
      exists (S fuel). unfold loop in *.
      rewrite GetCurrentDirectoryValue_loop_turn by lia. cbn zeta.
      destruct (_ + 1 <=? r) eqn:Hfit; [lia|]. now apply read_at_next.
    + destruct (IH (next st)
                  (store (terminated (current_directory (ticks st)))
                     (resize (Z.to_nat r) buf))
                  (size (current_directory (ticks st)))) as [fuel Hfuel];
        [lia | exact Hsteady' |].
      exists (S fuel). unfold loop in *.
      rewrite GetCurrentDirectoryValue_loop_turn by lia. cbn zeta.
      destruct (_ + 1 <=? r) eqn:Hfit; [|lia].
      destruct (size (current_directory (ticks st)) =? 0) eqn:Hz; [lia|].
      apply Z.eqb_neq in Hbig. rewrite Hbig. now apply read_at_next.
Qed.

End Current_directory.

Section Dll_directory.

Hypothesis Hrange : forall t, size (dll_directory t) + 2 < 2 ^ 32.

Let loop := GetDllDirectoryValue_loop.
Let ends := read_at dll_directory.

Lemma dll_directory_from_needed buf st :
  last_error st = ERROR_SUCCESS ->
  ends st (loop 1%nat K buf (size (dll_directory (ticks st)) + 1) st).
Proof.
  intros Herr.
  pose proof (size_nonneg (dll_directory (ticks st))) as Hnn.
  pose proof (Hrange (ticks st)) as Hv.
  unfold loop. rewrite GetDllDirectoryValue_loop_turn by (assumption || lia). cbn zeta.
  destruct (_ + 1 <=? _ + 1) eqn:Hfit; [|lia].
  rewrite Z.eqb_refl. eexists _, _, _. split; [reflexivity|].
  cbn [next ticks pred]. split; [lia|]. split; [lia|]. now apply trimmed.
Qed.

Lemma dll_directory_from_small buf st r :
  last_error st = ERROR_SUCCESS ->
  0 <= r < size (dll_directory (ticks st)) + 1 ->
  dll_directory (S (ticks st)) = dll_directory (ticks st) ->
  ends st (loop 2%nat K buf r st).
Proof.
  intros Herr Hr Hsame. pose proof (Hrange (ticks st)) as Hv.
  unfold loop. rewrite GetDllDirectoryValue_loop_turn by (assumption || lia). cbn zeta.
  destruct (_ + 1 <=? r) eqn:Hfit; [lia|].
  apply read_at_next. rewrite <- Hsame.
  now apply (dll_directory_from_needed _ (next st)).
Qed.

Lemma GetDllDirectoryValue_loop_converges (k : nat) :
  forall st buf r,
    last_error st = ERROR_SUCCESS ->
    0 <= r < 2 ^ 32 ->
    steady dll_directory (ticks st + k) ->
    exists fuel, ends st (loop fuel K buf r st).
Proof.
  induction k as [|k IH]; intros st buf r Herr Hr Hsteady.
  - rewrite Nat.add_0_r in Hsteady.
    pose proof (size_nonneg (dll_directory (ticks st))) as Hnn.
    pose proof (Hrange (ticks st)) as Hv.
    assert (Hsame1 : dll_directory (S (ticks st)) = dll_directory (ticks st)).
    { apply Hsteady. lia. }
    assert (Hsame2 : dll_directory (S (S (ticks st))) = dll_directory (S (ticks st))).
    { rewrite Hsame1. apply Hsteady. lia. }
    destruct (Z_lt_le_dec r (size (dll_directory (ticks st)) + 1)) as [Hsmall|Hfits].
    { exists 2%nat. apply dll_directory_from_small; auto with lia. }
    destruct (Z.eq_dec r (size (dll_directory (ticks st)) + 1)) as [->|Hbig].
    { exists 1%nat. now apply dll_directory_from_needed. }
    exists 3%nat. unfold loop.
    rewrite GetDllDirectoryValue_loop_turn by (assumption || lia). cbn zeta.
    destruct (_ + 1 <=? r) eqn:Hfit; [|lia].
    apply Z.eqb_neq in Hbig. rewrite Hbig.
    apply read_at_next. rewrite <- Hsame1 at 2.
    apply (dll_directory_from_small _ (next st)); cbn [next ticks last_error].
    + exact Herr.
    + rewrite Hsame1. lia.
    + exact Hsame2.
  - assert (Hsteady' : steady dll_directory (ticks (next st) + k)).
    { cbn [next ticks].
      replace (S (ticks st) + k)%nat with (ticks st + S k)%nat by lia. exact Hsteady. }
    pose proof (size_nonneg (dll_directory (ticks st))) as Hnn.
    pose proof (Hrange (ticks st)) as Hv.
    destruct (Z.eq_dec r (size (dll_directory (ticks st)) + 1)) as [->|Hbig].
    { exists 1%nat. now apply dll_directory_from_needed. }
    destruct (Z_lt_le_dec r (size (dll_directory (ticks st)) + 1)) as [Hsmall|Hfits].
    + destruct (IH (next st) (resize (Z.to_nat r) buf)
                  (size (dll_directory (ticks st)) + 1)) as [fuel Hfuel];
        [exact Herr | lia | exact Hsteady' |].
      exists (S fuel). unfold loop in *.
      rewrite GetDllDirectoryValue_loop_turn by (assumption || lia). cbn zeta.
      destruct (_ + 1 <=? r) eqn:Hfit; [lia|]. now apply read_at_next.
    + destruct (IH (next st)
                  (store (terminated (dll_directory (ticks st)))
                     (resize (Z.to_nat r) buf))
                  (size (dll_directory (ticks st)))) as [fuel Hfuel];
        [exact Herr | lia | exact Hsteady' |].
      exists (S fuel). unfold loop in *.
      rewrite GetDllDirectoryValue_loop_turn by (assumption || lia). cbn zeta.
      destruct (_ + 1 <=? r) eqn:Hfit; [|lia].
      apply Z.eqb_neq in Hbig. rewrite Hbig. now apply read_at_next.
Qed.

End Dll_directory.

End Directories.

(** X6. Against a kernel32 that behaves as documented, with a current
    directory that is never empty and is the same from some call on,
    [GetCurrentDirectoryValue] returns, and the string is the whole current
    directory as it was at the last call made, without the terminator: the
    final one as soon as the answers are steady by the first fill. *)
Theorem GetCurrentDirectoryValue_returns_last_value
    (expansion : nat -> wstring -> wstring)
    (variable : nat -> wstring -> option wstring)
    (current_directory dll_directory : nat -> wstring)
    (n : nat) (st : thread) :
  let K := documented expansion variable current_directory dll_directory in
  steady current_directory n ->
  (forall t, current_directory t <> EmptyString) ->
  (forall t, size (current_directory t) + 1 < 2 ^ 32) ->
  exists fuel st',
    GetCurrentDirectoryValue fuel K st = Ok (current_directory (pred (ticks st')), st')
    /\ (ticks st < pred (ticks st'))%nat
    /\ ((n <= S (ticks st))%nat ->
        current_directory (pred (ticks st')) = current_directory n).
Proof.
  intros K Hsteady Hset Hrange.
  pose proof (size_nonneg (current_directory (ticks st))) as Hnn.
  pose proof (Hrange (ticks st)) as Hv.
  destruct (GetCurrentDirectoryValue_loop_converges
              expansion variable current_directory dll_directory Hset Hrange
              (n - S (ticks st)) (next st) EmptyString
              (size (current_directory (ticks st)) + 1))
    as (fuel & e & r' & st' & Hrun & Hlt & Hr' & Hres).
  { lia. }
  { apply (steady_later _ n); [exact Hsteady | cbn; lia]. }
  exists fuel, st'. cbn [next ticks] in Hlt.
  split; [|split; [lia|]].
  - unfold GetCurrentDirectoryValue, bind, GetCurrentDirectory, call, ret.
    cbn [K documented k_GetCurrentDirectory]. unfold value_reply.
    destruct (_ + 1 <=? 0) eqn:Hfit; [lia|]. cbn [r_ret r_out].
    rewrite wrap32_small by lia.
    destruct (_ + 1 =? 0) eqn:Hz; [lia|].
    change (after_call _ st) with (next st).
    fold K in Hrun. rewrite Hrun. now rewrite Hres.
  - intros Hn. apply Hsteady. lia.
Qed.

Lemma GetCurrentDirectoryValue_returns_last_value_witness :
  exists fuel st',
    GetCurrentDirectoryValue fuel moving_kernel thread0
    = Ok (moving_directory (pred (ticks st')), st')
    /\ (ticks thread0 < pred (ticks st'))%nat
    /\ ((1 <= S (ticks thread0))%nat ->
        moving_directory (pred (ticks st')) = moving_directory 1).
Proof.
  apply (GetCurrentDirectoryValue_returns_last_value growing_expansion growing
           moving_directory moving_dll_directory 1 thread0).
  - intros [|t] Ht; [lia | reflexivity].
  - intros [|t]; discriminate.
  - intros [|t]; vm_compute; reflexivity.
Defined.

(** X7. Against a kernel32 that behaves as documented, with a DLL directory
    that is the same from some call on, [GetDllDirectoryValue] returns, and
    the string is the whole DLL directory as it was at the last call made,
    the empty string when none was set then. *)
Theorem GetDllDirectoryValue_returns_last_value
    (expansion : nat -> wstring -> wstring)
    (variable : nat -> wstring -> option wstring)
    (current_directory dll_directory : nat -> wstring)
    (n : nat) (st : thread) :
  let K := documented expansion variable current_directory dll_directory in
  steady dll_directory n ->
  (forall t, size (dll_directory t) + 2 < 2 ^ 32) ->
  exists fuel st',
    GetDllDirectoryValue fuel K st = Ok (dll_directory (pred (ticks st')), st')
    /\ (ticks st < pred (ticks st'))%nat
    /\ ((n <= S (ticks st))%nat ->
        dll_directory (pred (ticks st')) = dll_directory n).
Proof.
  intros K Hsteady Hrange.
  pose proof (size_nonneg (dll_directory (ticks st))) as Hnn.
  pose proof (Hrange (ticks st)) as Hv.
  set (st0 := mkThread (ticks st) ERROR_SUCCESS).
  destruct (GetDllDirectoryValue_loop_converges
              expansion variable current_directory dll_directory Hrange
              (n - S (ticks st)) (next st0) EmptyString
              (size (dll_directory (ticks st)) + 1))
    as (fuel & e & r' & st' & Hrun & Hlt & Hr' & Hres).
  { reflexivity. }
  { lia. }
  { apply (steady_later _ n); [exact Hsteady | cbn; lia]. }
  exists fuel, st'. cbn [next ticks st0] in Hlt.
  split; [|split; [lia|]].
  - unfold GetDllDirectoryValue, bind, SetLastError, GetDllDirectory, call, ret.
    cbn [K documented k_GetDllDirectory ticks]. unfold value_reply.
    destruct (_ + 1 <=? 0) eqn:Hfit; [lia|]. cbn [r_ret r_out].
    rewrite wrap32_small by lia.
    destruct (_ + 1 =? 0) eqn:Hz; [lia|].
    change (after_call _ _) with (next st0).
    fold K in Hrun. rewrite Hrun. now rewrite Hres.
  - intros Hn. apply Hsteady. lia.
Qed.

Lemma GetDllDirectoryValue_returns_last_value_witness :
  exists fuel st',
    GetDllDirectoryValue fuel moving_kernel thread0
    = Ok (moving_dll_directory (pred (ticks st')), st')
    /\ (ticks thread0 < pred (ticks st'))%nat
    /\ ((1 <= S (ticks thread0))%nat ->
        moving_dll_directory (pred (ticks st')) = moving_dll_directory 1).
Proof.
  apply (GetDllDirectoryValue_returns_last_value growing_expansion growing
           moving_directory moving_dll_directory 1 thread0).
  - intros [|t] Ht; [lia | reflexivity].
  - intros [|t]; vm_compute; reflexivity.
Defined.

(** X15. Against a kernel32 that behaves as documented, when the variable
    has a value at the probe and is empty at the fill, the fill returns zero
    without setting the last error, and [GetEnvironmentVariableValue] decides
    on the last error that the thread had before the call: it returns
    [std::nullopt] when that was [ERROR_ENVVAR_NOT_FOUND], and otherwise
    throws a [std::system_error] with that earlier code, [ERROR_SUCCESS]
    included. *)
Theorem GetEnvironmentVariableValue_emptied_meanwhile
    (expansion : nat -> wstring -> wstring)
    (variable : nat -> wstring -> option wstring)
    (current_directory dll_directory : nat -> wstring)
    (fuel : nat) (str v : wstring) (st : thread) :
  let K := documented expansion variable current_directory dll_directory in
  variable (ticks st) str = Some v -> v <> EmptyString -> size v + 1 < 2 ^ 32 ->
  variable (S (ticks st)) str = Some EmptyString ->
  GetEnvironmentVariableValue (S fuel) K str st
  = if last_error st =? ERROR_ENVVAR_NOT_FOUND
    then Ok (None, next (next st))
    else Throw (system_error (last_error st) "ExpandEnvironmentStringsW").
Proof.
  intros K Hvar Hne Hv Hvar'.
  pose proof (size_nonneg v) as Hnn.
  assert (Hnz : size v <> 0) by (intros Hz; now apply size_zero in Hz).
  unfold GetEnvironmentVariableValue, bind, GetEnvironmentVariableW, call,
    GetLastError, ret, throw.
  cbn [K documented k_GetEnvironmentVariableW].
  rewrite Hvar. cbn [variable_reply]. unfold value_reply.
  destruct (size v + 1 <=? 0) eqn:Hfit; [lia|].
  cbn [r_ret]. rewrite wrap32_small by lia.
  destruct (size v + 1 =? 0) eqn:Hz; [lia|].
  destruct (size v + 1 =? 1) eqn:Hone; [lia|].
  change (after_call _ st) with (next st).
  subst K.
  rewrite (GetEnvironmentVariableValue_loop_turn expansion variable current_directory
             dll_directory fuel str "" (size v + 1) (next st)).
  2:{ lia. }
  2:{ cbn [next ticks]. rewrite Hvar'. intros v' [= <-]. vm_compute. reflexivity. }
  cbn [next ticks last_error]. rewrite Hvar'.
  change (size "") with 0. destruct (0 + 1 <=? size v + 1) eqn:Hfit'; [|lia].
  cbn [Z.eqb]. destruct (last_error st =? ERROR_ENVVAR_NOT_FOUND); reflexivity.
Qed.

Lemma GetEnvironmentVariableValue_emptied_meanwhile_witness :
  GetEnvironmentVariableValue 1 emptied_kernel "X" thread0
  = Throw (system_error ERROR_SUCCESS "ExpandEnvironmentStringsW")
  /\ GetEnvironmentVariableValue 1 emptied_kernel "X" (mkThread 0 ERROR_ENVVAR_NOT_FOUND)
     = Ok (None, mkThread 2 ERROR_ENVVAR_NOT_FOUND).
Proof.
  split.
  - apply (GetEnvironmentVariableValue_emptied_meanwhile growing_expansion emptied
             moving_directory moving_dll_directory 0 "X" "ab" thread0).
    + reflexivity.
    + discriminate.
    + vm_compute. reflexivity.
    + reflexivity.
  - apply (GetEnvironmentVariableValue_emptied_meanwhile growing_expansion emptied
             moving_directory moving_dll_directory 0 "X" "ab"
             (mkThread 0 ERROR_ENVVAR_NOT_FOUND)).
    + reflexivity.
    + discriminate.
    + vm_compute. reflexivity.
    + reflexivity.
Defined.

(** * Further properties of the synchronizer *)

(** ** Induction over the writes of a mirror step *)

(** What the branch for a regular file can do to the files: nothing, or
    write the source file over a destination that is absent or older and is
    not a directory. *)
Lemma CopyDirTo_file_change H (t : path) (e : directory_entry) w w' :
  CopyDirTo_file H t e w = Ok (tt, w') ->
  let d := t // filename (entry_path e) in
  files w' = files w
  \/ exists tm c, files w !! entry_path e = Some (File tm c)
                  /\ is_dir (files w) d = false
                  /\ (forall nd, files w !! d = Some nd -> write_time nd < tm)
                  /\ files w' = <[d := File tm c]> (files w).
Proof.
  intros Hrun d. revert Hrun. unfold CopyDirTo_file. fold d.
  unfold bind, fs_exists, last_write_time, CopyFile, LOG_INFO, LOG_LAST_ERROR, ret.
  assert (Hperm : forall src, CopyFile_permitted H (files w) src d false = true ->
                              is_dir (files w) d = false).
  { unfold CopyFile_permitted. intros src Hp.
    destruct (is_dir (files w) d); [|reflexivity].
    rewrite andb_false_r in Hp. cbn in Hp. discriminate. }
  case_matches; intros Hrun; simplify_eq; cbn [files]; auto.
  all: right; eexists _, _; split; [reflexivity|]; split; [eauto|];
    split; [|reflexivity].
  all: intros nd' Hnd'; unfold present in *; cbn [write_time] in *.
  all: repeat match goal with
              | Hle : (_ <=? _) = false |- _ => apply Z.leb_gt in Hle
              end.
  all: try congruence.
  all: rewrite Hnd' in *; discriminate.
Qed.

Section Steps.

Variable H : host.
Variable R : path -> path -> gmap path node -> gmap path node -> Prop.

Hypothesis R_refl : forall s t m, R s t m m.
Hypothesis R_trans : forall s t m1 m2 m3, R s t m1 m2 -> R s t m2 m3 -> R s t m1 m3.
Hypothesis R_child : forall s t n m m', R (s ++ [n]) (t ++ [n]) m m' -> R s t m m'.
Hypothesis R_create : forall s t m,
  m !! t = None -> is_dir (<[t := Directory (now H)]> m) s = true ->
  R s t m (<[t := Directory (now H)]> m).
Hypothesis R_copy : forall s t n m tm c,
  m !! (s ++ [n]) = Some (File tm c) -> is_dir m (t ++ [n]) = false ->
  (forall nd, m !! (t ++ [n]) = Some nd -> write_time nd < tm) ->
  R s t m (<[t ++ [n] := File tm c]> m).

(** A relation that holds of each write holds of a mirror step that
    returns. *)
Lemma CopyDirTo_steps fuel :
  forall (s t : path) w w',
    CopyDirTo fuel H s t w = Ok (tt, w') -> R s t (files w) (files w').
Proof.
  induction fuel as [|fuel IH]; intros s t w w' Hrun; [discriminate|].
  apply CopyDirTo_loop_start in Hrun as (w1 & Hloop & Hs1 & Hw1 & _).
  assert (Hstart : R s t (files w) (files w1)).
  { destruct Hw1 as [-> | (Hp & _ & Hfiles)]; [apply R_refl|].
    rewrite Hfiles in Hs1 |- *. apply R_create; [|exact Hs1].
    unfold present in Hp. destruct (files w !! t); [discriminate | reflexivity]. }
  apply (R_trans _ _ _ _ _ Hstart).
  assert (Hentries : forall e, e ∈ children (files w1) s ->
                               exists n, entry_path e = s ++ [n]).
  { intros e He. apply children_spec in He as (n & nd & _ & ->). eauto. }
  revert Hentries Hloop. generalize (children (files w1) s) as l. clear Hs1 Hw1 Hstart.
  intros l. revert w1. induction l as [|e l IHl]; intros w1 Hentries Hrun.
  - injection Hrun as <-. apply R_refl.
  - apply for_each_cons_Ok in Hrun as (w2 & Hbody & Hrest).
    destruct (Hentries e) as [n Hn]; [left|].
    apply (R_trans _ _ _ (files w2)).
    + unfold CopyDirTo_body in Hbody. destruct e as [ep ty]. cbn in Hn, Hbody. subst ep.
      destruct ty.
      * apply CopyDirTo_file_change in Hbody. cbn [entry_path] in Hbody.
        rewrite filename_snoc in Hbody. unfold path_append in Hbody.
        destruct Hbody as [-> | (tm & c & Hsrc & Hnd & Hold & ->)]; [apply R_refl|].
        now apply R_copy.
      * rewrite filename_snoc in Hbody. apply IH in Hbody. now apply R_child in Hbody.
    + apply IHl; [|exact Hrest]. intros e' He'. apply Hentries. now right.
Qed.

End Steps.

(** ** Nothing gets older, nothing is invented *)

Lemma advanced_refl m : advanced m m.
Proof. intros k n Hk. now left. Qed.

Lemma advanced_trans m1 m2 m3 : advanced m1 m2 -> advanced m2 m3 -> advanced m1 m3.
Proof.
  intros H12 H23 k n Hk.
  destruct (H12 k n Hk) as [Hsame | (tm & c & Hk2 & Hreg & Hlt)].
  - now apply H23.
  - right. destruct (H23 k _ Hk2) as [Hsame | (tm' & c' & Hk3 & _ & Hlt')].
    + exists tm, c. auto.
    + exists tm', c'. cbn [write_time] in Hlt'. split; [exact Hk3|]. split; [exact Hreg | lia].
Qed.

Lemma advanced_create (m : gmap path node) (p : path) nd :
  m !! p = None -> advanced m (<[p := nd]> m).
Proof.
  intros Hp k n Hk. left. rewrite lookup_insert_ne; [exact Hk | congruence].
Qed.

Lemma advanced_copy (m : gmap path node) (d : path) tm c :
  is_dir m d = false -> (forall nd, m !! d = Some nd -> write_time nd < tm) ->
  advanced m (<[d := File tm c]> m).
Proof.
  intros Hdir Hold k n Hk.
  destruct (decide (d = k)) as [<-|Hne].
  - right. exists tm, c. rewrite lookup_insert_eq. split; [reflexivity|].
    split; [|now apply Hold].
    unfold is_dir in Hdir. rewrite Hk in Hdir. destruct n; [reflexivity | discriminate].
  - left. now rewrite lookup_insert_ne.
Qed.

Lemma CopyDirTo_advanced H fuel (s t : path) w w' :
  CopyDirTo fuel H s t w = Ok (tt, w') -> advanced (files w) (files w').
Proof.
  apply (CopyDirTo_steps H (fun _ _ => advanced)).
  - intros _ _. apply advanced_refl.
  - intros _ _. apply advanced_trans.
  - auto.
  - intros _ p m Hp _. now apply advanced_create.
  - intros s0 t0 n0 m tm c _ Hdir Hold. now apply advanced_copy.
Qed.

Lemma advanced_not_aged (m m' : gmap path node) : advanced m m' -> not_aged m m'.
Proof.
  intros Hadv k n Hk.
  destruct (Hadv k n Hk) as [Hsame | (tm' & c' & Hk' & Hreg & Hlt)].
  - destruct n as [tm c|tm]; [now left|]. unfold is_dir. now rewrite Hsame.
  - destruct n as [tm c|tm]; [|discriminate Hreg]. right. eauto.
Qed.

(** X8. A mirror step that returns, whatever the two folders are and
    whatever the system refuses, loses nothing and makes no file older:
    every directory is still a directory afterwards, and every regular file
    is there afterwards as a regular file, either as it was or with a
    strictly later last-write time. [CopyToDirectory] without [cleanDest]
    does the same. *)
Theorem CopyDirTo_makes_nothing_older (H : host) (fuel : nat) (s t : path)
    (w w' : world) :
  CopyDirTo fuel H s t w = Ok (tt, w') ->
  (forall k tm, files w !! k = Some (Directory tm) -> is_dir (files w') k = true)
  /\ (forall k tm c, files w !! k = Some (File tm c) ->
        files w' !! k = Some (File tm c)
        \/ exists tm' c', files w' !! k = Some (File tm' c') /\ tm < tm')
  /\ (forall destination source w0 hr w0',
        CopyToDirectory fuel H destination source false w0 = Ok (hr, w0') ->
        not_aged (files w0) (files w0')).
Proof.
  intros Hrun. apply CopyDirTo_advanced, advanced_not_aged in Hrun.
  split; [|split].
  - intros k tm Hk. apply (Hrun k _ Hk).
  - intros k tm c Hk. apply (Hrun k _ Hk).
  - intros destination source w0 hr w0'. unfold CopyToDirectory.
    destruct (bool_decide _).
    { intros [= _ <-]. apply advanced_not_aged, advanced_refl. }
    intros Hcall. apply bind_Ok in Hcall as (b & w1 & Hb & Hcall). injection Hb as <- <-.
    apply bind_Ok in Hcall as ([] & w2 & Hclean & Hcall). injection Hclean as <-.
    apply bind_Ok in Hcall as ([] & w3 & Hcopy & Hret). injection Hret as _ <-.
    now apply CopyDirTo_advanced, advanced_not_aged in Hcopy.
Qed.

Lemma CopyDirTo_makes_nothing_older_witness :
  exists w', CopyDirTo 3 quiet ["C:"; "src"] ["C:"; "dst"] disk0 = Ok (tt, w')
             /\ is_dir (files w') ["C:"; "dst"] = true
             /\ (files w' !! ["C:"; "dst"; "f1"] = Some (File 5 "old f1")
                 \/ exists tm' c', files w' !! ["C:"; "dst"; "f1"] = Some (File tm' c')
                                   /\ 5 < tm').
Proof.
  destruct (CopyDirTo 3 quiet ["C:"; "src"] ["C:"; "dst"] disk0)
    as [[[] w']| |] eqn:Hrun; [|vm_compute in Hrun; discriminate Hrun ..].
  exists w'. split; [reflexivity|].
  pose proof (CopyDirTo_makes_nothing_older quiet 3 ["C:"; "src"] ["C:"; "dst"]
                disk0 w' Hrun) as (Hdirs & Hfiles & _).
  split.
  - apply (Hdirs _ 2). reflexivity.
  - apply Hfiles. reflexivity.
Defined.


Lemma CopyDirTo_sourced H fuel (s t : path) w w' :
  CopyDirTo fuel H s t w = Ok (tt, w') ->
  kept (files w) (files w') /\ sourced H (files w) (files w').
Proof.
  apply (CopyDirTo_steps H (fun _ _ m m' => kept m m' /\ sourced H m m')).
  - intros _ _ m. split; [apply kept_refl|].
    intros k [tm c|tm] Hk; eauto.
  - intros _ _ m1 m2 m3 [Hk12 Hs12] [Hk23 Hs23].
    split; [eapply kept_trans; eauto|].
    intros k n' Hk. specialize (Hs23 k n' Hk). destruct n' as [tm c|tm].
    + destruct Hs23 as [k0 Hk0]. apply (Hs12 k0 _ Hk0).
    + destruct Hs23 as [Hk2 | [-> Hk2]]; [apply (Hs12 k _ Hk2)|].
      right. split; [reflexivity|].
      destruct (m1 !! k) as [n1|] eqn:Hk1; [|reflexivity].
      destruct (Hk12 k n1 Hk1) as (n2 & Hn2 & _). congruence.
  - auto.
  - intros _ p m Hp _. split.
    + intros k n Hk. rewrite lookup_insert_ne by congruence. eauto.
    + intros k n' Hk. destruct (decide (p = k)) as [<-|Hne].
      * rewrite lookup_insert_eq in Hk. injection Hk as <-. now right.
      * rewrite lookup_insert_ne in Hk by exact Hne. destruct n'; eauto.
  - intros s0 t0 n0 m tm c Hsrc Hdir _. split.
    + intros k n Hk. destruct (decide (t0 ++ [n0] = k)) as [<-|Hne].
      * rewrite lookup_insert_eq. eexists. split; [reflexivity|].
        unfold is_dir in Hdir. rewrite Hk in Hdir. destruct n; [reflexivity | discriminate].
      * rewrite lookup_insert_ne by exact Hne. eauto.
    + intros k n' Hk. destruct (decide (t0 ++ [n0] = k)) as [<-|Hne].
      * rewrite lookup_insert_eq in Hk. injection Hk as <-. eauto.
      * rewrite lookup_insert_ne in Hk by exact Hne. destruct n'; eauto.
Qed.

(** X9. A mirror step that returns invents nothing, whatever the two
    folders are: every regular file found afterwards has the last-write
    time and the bytes of a regular file that was there before the step,
    and every directory found afterwards was a directory before, or stands
    where nothing was. *)
Theorem CopyDirTo_invents_nothing (H : host) (fuel : nat) (s t : path)
    (w w' : world) :
  CopyDirTo fuel H s t w = Ok (tt, w') ->
  (forall k tm c, files w' !! k = Some (File tm c) ->
                  exists k0, files w !! k0 = Some (File tm c))
  /\ (forall k, is_dir (files w') k = true ->
                is_dir (files w) k = true \/ files w !! k = None).
Proof.
  intros Hrun. apply CopyDirTo_sourced in Hrun as [_ Hrun].
  split.
  - intros k tm c Hk. apply (Hrun k _ Hk).
  - intros k Hk. unfold is_dir in Hk |- *.
    destruct (files w' !! k) as [[tm c|tm]|] eqn:Hk'; try discriminate.
    destruct (Hrun k _ Hk') as [-> | [_ ->]]; auto.
Qed.

Lemma CopyDirTo_invents_nothing_witness :
  exists w', CopyDirTo 3 quiet ["C:"; "src"] ["C:"; "dst"] disk0 = Ok (tt, w')
             /\ files w' !! ["C:"; "dst"; "sub"; "f2"] = Some (File 10 "f2")
             /\ (exists k0, files disk0 !! k0 = Some (File 10 "f2"))
             /\ is_dir (files w') ["C:"; "dst"; "sub"] = true
             /\ (is_dir (files disk0) ["C:"; "dst"; "sub"] = true
                 \/ files disk0 !! ["C:"; "dst"; "sub"] = None).
Proof.
  destruct (CopyDirTo 3 quiet ["C:"; "src"] ["C:"; "dst"] disk0)
    as [[[] w']| |] eqn:Hrun; [|vm_compute in Hrun; discriminate Hrun ..].
  exists w'.
  pose proof (CopyDirTo_invents_nothing quiet 3 ["C:"; "src"] ["C:"; "dst"]
                disk0 w' Hrun) as (Hfiles & Hdirs).
  assert (Hf2 : files w' !! ["C:"; "dst"; "sub"; "f2"] = Some (File 10 "f2")).
  { clear Hfiles Hdirs. vm_compute in Hrun. injection Hrun as <-. reflexivity. }
  assert (Hsub : is_dir (files w') ["C:"; "dst"; "sub"] = true).
  { clear Hfiles Hdirs Hf2. vm_compute in Hrun. injection Hrun as <-. reflexivity. }
  split; [reflexivity|]. split; [exact Hf2|]. split; [|split; [exact Hsub|]].
  - apply (Hfiles _ _ _ Hf2).
  - apply (Hdirs _ Hsub).
Defined.


(** ** What is written is a copy *)

Lemma not_prefix_longer (t : path) n : ~ (t ++ [n]) `prefix_of` t.
Proof.
  intros [u Hu]. apply (f_equal length) in Hu. rewrite !length_app in Hu. cbn in Hu. lia.
Qed.

Lemma other_name_not_prefix (t : path) n x rel :
  x <> n -> ~ (t ++ [n]) `prefix_of` (t ++ x :: rel).
Proof.
  intros Hne. apply (sibling_not_prefix t x n); [congruence | apply prefix_snoc].
Qed.

Lemma CopyDirTo_copied H fuel (s t : path) w w' :
  CopyDirTo fuel H s t w = Ok (tt, w') ->
  ~ s `prefix_of` t -> ~ t `prefix_of` s ->
  mirrored s t (files w) (files w') /\ copied H s t (files w) (files w').
Proof.
  apply (CopyDirTo_steps H
           (fun s t m m' => ~ s `prefix_of` t -> ~ t `prefix_of` s ->
                            mirrored s t m m' /\ copied H s t m m')).
  - intros s0 t0 m _ _. split; [apply mirrored_refl | now left].
  - intros s0 t0 m1 m2 m3 H12 H23 Hst Hts.
    destruct (H12 Hst Hts) as [Hm12 Hc12]. destruct (H23 Hst Hts) as [Hm23 Hc23].
    split; [eapply mirrored_trans; eauto|].
    intros rel.
    pose proof (mirrored_source s0 t0 m1 m2 Hm12 Hst Hts rel) as Hsrc.
    destruct (Hc23 rel) as [Hsame23 | Hch23]; destruct (Hc12 rel) as [Hsame12 | Hch12].
    + left. congruence.
    + right. now rewrite Hsame23.
    + right. now rewrite <- Hsrc, <- Hsame12.
    + right. rewrite Hsrc in Hch23.
      destruct (m1 !! (s0 ++ rel)) as [[tm c|tm]|]; [exact Hch23 | | exact Hch23].
      destruct Hch23 as [Hnone _]. destruct Hch12 as [_ Hsome]. congruence.
  - intros s0 t0 n m m' Hchild Hst Hts.
    destruct Hchild as [Hm Hc]; [now apply not_prefix_child ..|].
    split; [now apply mirrored_child in Hm|].
    intros [|x rel].
    + left. apply (mirrored_outside _ _ _ _ _ Hm). rewrite app_nil_r.
      apply not_prefix_longer.
    + destruct (decide (x = n)) as [->|Hne].
      * specialize (Hc rel). now rewrite <- !snoc_assoc in Hc.
      * left. apply (mirrored_outside _ _ _ _ _ Hm). now apply other_name_not_prefix.
  - intros s0 t0 m Hnone Hdir Hst Hts.
    assert (Hne : t0 <> s0) by (intros ->; now apply Hst).
    split.
    + apply (mirrored_insert s0 t0 []).
      * now rewrite app_nil_r.
      * intros n Hn. rewrite Hn in Hnone. discriminate.
      * rewrite app_nil_r. unfold is_dir in Hdir.
        destruct (<[t0:=Directory (now H)]> m !! s0); [eauto | discriminate].
    + intros [|x rel].
      * right. rewrite !app_nil_r. unfold is_dir in Hdir.
        rewrite lookup_insert_ne in Hdir by exact Hne.
        destruct (m !! s0) as [[|tm]|]; try discriminate.
        split; [exact Hnone | apply lookup_insert_eq].
      * left. apply lookup_insert_ne. intros Heq.
        rewrite <- (app_nil_r t0) in Heq at 1. apply app_inv_head in Heq. discriminate.
  - intros s0 t0 n m tm c Hsrc Hdir _ Hst Hts.
    assert (Hne : t0 ++ [n] <> s0 ++ [n]).
    { intros Heq. apply app_inj_tail in Heq as [-> _]. now apply Hst. }
    split.
    + apply (mirrored_insert s0 t0 [n]); [reflexivity | |].
      * intros nd Hnd. unfold is_dir in Hdir. rewrite Hnd in Hdir.
        destruct nd; [reflexivity | discriminate].
      * rewrite lookup_insert_ne by exact Hne. eauto.
    + intros rel. destruct (decide (rel = [n])) as [->|Hrel].
      * right. rewrite Hsrc. apply lookup_insert_eq.
      * left. apply lookup_insert_ne. intros Heq. apply app_inv_head in Heq. congruence.
Qed.

(** X10. When neither folder is inside the other, a mirror step that
    returns has written nothing but copies. A regular file found afterwards
    at a place under the target folder was there before, or has the
    last-write time and the bytes that the regular file at the same place
    under the source folder had when the step began (and what was there was
    a regular file with an earlier time, or nothing). A directory found
    there was a directory before, or stands where nothing was and its
    counterpart under the source folder is a directory. And a place that is
    empty afterwards was empty before. *)
Theorem CopyDirTo_writes_copies (H : host) (fuel : nat) (s t : path) (w w' : world) :
  CopyDirTo fuel H s t w = Ok (tt, w') ->
  ~ s `prefix_of` t -> ~ t `prefix_of` s ->
  forall rel,
    match files w' !! (t ++ rel) with
    | Some (File tm c) =>
        files w !! (t ++ rel) = Some (File tm c)
        \/ (files w !! (s ++ rel) = Some (File tm c)
            /\ forall nd, files w !! (t ++ rel) = Some nd ->
                          status nd = regular /\ write_time nd < tm)
    | Some (Directory _) =>
        is_dir (files w) (t ++ rel) = true
        \/ (files w !! (t ++ rel) = None /\ is_dir (files w) (s ++ rel) = true)
    | None => files w !! (t ++ rel) = None
    end.
Proof.
  intros Hrun Hst Hts rel.
  pose proof (CopyDirTo_advanced _ _ _ _ _ _ Hrun) as Hadv.
  apply CopyDirTo_copied in Hrun as [[Hkept _] Hc]; [|assumption ..].
  destruct (Hc rel) as [Heq | Hch].
  - rewrite Heq. destruct (files w !! (t ++ rel)) as [[tm c|tm]|] eqn:Hold.
    + now left.
    + left. unfold is_dir. now rewrite Hold.
    + reflexivity.
  - destruct (files w !! (s ++ rel)) as [[tm c|tm]|] eqn:Hsrc; [| |contradiction].
    + rewrite Hch. destruct (decide (files w !! (t ++ rel) = Some (File tm c)));
        [now left|].
      right. split; [reflexivity|].
      intros nd Hnd. destruct (Hadv _ _ Hnd) as [Hsame | (tm' & c' & Hnew & Hreg & Hlt)].
      * congruence.
      * rewrite Hch in Hnew. injection Hnew as -> ->. auto.
    + destruct Hch as [Hnone ->]. right. split; [exact Hnone|].
      unfold is_dir. now rewrite Hsrc.
Qed.

Lemma CopyDirTo_writes_copies_witness :
  exists w', CopyDirTo 3 quiet ["C:"; "src"] ["C:"; "dst"] disk0 = Ok (tt, w')
    /\ files w' !! (["C:"; "dst"] ++ ["f1"]) = Some (File 10 "new f1")
    /\ (files disk0 !! (["C:"; "dst"] ++ ["f1"]) = Some (File 10 "new f1")
        \/ (files disk0 !! (["C:"; "src"] ++ ["f1"]) = Some (File 10 "new f1")
            /\ forall nd, files disk0 !! (["C:"; "dst"] ++ ["f1"]) = Some nd ->
                          status nd = regular /\ write_time nd < 10)).
Proof.
  destruct (CopyDirTo 3 quiet ["C:"; "src"] ["C:"; "dst"] disk0)
    as [[[] w']| |] eqn:Hrun; [|vm_compute in Hrun; discriminate Hrun ..].
  exists w'. split; [reflexivity|].
  assert (Hf1 : files w' !! (["C:"; "dst"] ++ ["f1"]) = Some (File 10 "new f1")).
  { vm_compute in Hrun. injection Hrun as <-. reflexivity. }
  split; [exact Hf1|].
  pose proof (CopyDirTo_writes_copies quiet 3 ["C:"; "src"] ["C:"; "dst"] disk0 w' Hrun)
    as Hcopies.
  specialize (Hcopies ltac:(intros [u Hu]; discriminate Hu)
                      ltac:(intros [u Hu]; discriminate Hu) ["f1"]).
  rewrite Hf1 in Hcopies. exact Hcopies.
Defined.


(** ** When the mirror step throws *)

(** The step, once the target folder has been looked at. *)
Lemma CopyDirTo_unfold H fuel (s t : path) w :
  CopyDirTo (S fuel) H s t w
  = (let* entries := directory_iterator s in
     for_each entries (CopyDirTo_body (CopyDirTo fuel H) H t))
      (if CreateDirectory_permitted H (files w) t
       then mkWorld (<[t := Directory (now H)]> (files w)) (log w)
       else w).
Proof.
  cbn [CopyDirTo]. unfold bind at 1. cbn [fs_exists].
  destruct (present (files w) t) eqn:Hp; cbn [negb].
  - unfold CreateDirectory_permitted. rewrite Hp. reflexivity.
  - unfold bind at 1 2, CreateDirectory, ret.
    destruct (CreateDirectory_permitted H (files w) t); reflexivity.
Qed.


Lemma CopyDirTo_without_source H fuel (s t : path) w :
  is_dir (files w) s = false ->
  ~ (s = t /\ CreateDirectory_permitted H (files w) t = true) ->
  CopyDirTo (S fuel) H s t w = Throw (filesystem_error "directory_iterator").
Proof.
  intros Hs Hnot. rewrite CopyDirTo_unfold.
  assert (Hw1 : forall w1, files w1 !! s = files w !! s ->
             (let* entries := directory_iterator s in
              for_each entries (CopyDirTo_body (CopyDirTo fuel H) H t)) w1
             = Throw (filesystem_error "directory_iterator")).
  { intros w1 Heq. unfold bind, directory_iterator. rewrite Heq.
    unfold is_dir in Hs. destruct (files w !! s) as [[|tm]|]; congruence. }
  destruct (CreateDirectory_permitted H (files w) t) eqn:Hp.
  + apply Hw1. cbn [files]. apply lookup_insert_ne. intros <-. now apply Hnot.
  + now apply Hw1.
Qed.



(** ** A clean step that takes the source away *)


Lemma children_none (m : gmap path node) (p : path) :
  (forall n, m !! (p ++ [n]) = None) -> children m p = [].
Proof.
  intros Hnone. destruct (children m p) as [|e l] eqn:Hc; [reflexivity|].
  assert (He : e ∈ children m p) by (rewrite Hc; left).
  apply children_spec in He as (n & nd & Hnd & _). rewrite Hnone in Hnd. discriminate.
Qed.

(** X11. A mirror step whose source folder is not a directory when the step
    begins, and is not the target folder that the step itself creates,
    throws the exception of the directory iterator. With a source folder
    that is the target folder, absent but creatable, the step creates it,
    finds it empty and returns. *)
Theorem CopyDirTo_without_source_throws (H : host) (fuel : nat) (s t : path) (w : world) :
  is_dir (files w) s = false ->
  (~ (s = t /\ CreateDirectory_permitted H (files w) t = true) ->
   CopyDirTo (S fuel) H s t w = Throw (filesystem_error "directory_iterator"))
  /\ (s = t -> CreateDirectory_permitted H (files w) t = true ->
      (forall n, files w !! (t ++ [n]) = None) ->
      exists w', CopyDirTo (S fuel) H s t w = Ok (tt, w')
                 /\ is_dir (files w') t = true
                 /\ log w' = log w
                 /\ forall k, k <> t -> k <> parent_path t ->
                              files w' !! k = files w !! k).
Proof.
  intros Hs. split.
  - intros Hnot. now apply CopyDirTo_without_source.
  - intros -> Hperm Hnone. rewrite CopyDirTo_unfold, Hperm.
    unfold bind, directory_iterator. cbn [files]. rewrite lookup_insert_eq.
    rewrite children_none.
    + eexists. split; [reflexivity|]. cbn [files log].
      split; [|split; [reflexivity|]].
      * unfold is_dir. now rewrite lookup_insert_eq.
      * intros k Hk _. now apply lookup_insert_ne.
    + intros n. rewrite lookup_insert_ne; [apply Hnone|].
      intros Hbad. rewrite <- (app_nil_r t) in Hbad at 1.
      apply app_inv_head in Hbad. discriminate.
Qed.

(** A source folder that does not exist. *)
Lemma CopyDirTo_without_source_throws_witness :
  is_dir (files disk0) ["C:"; "none"] = false
  /\ CopyDirTo 1 quiet ["C:"; "none"] ["C:"; "dst"] disk0
     = Throw (filesystem_error "directory_iterator").
Proof.
  split; [reflexivity|].
  apply (proj1 (CopyDirTo_without_source_throws quiet 0 ["C:"; "none"] ["C:"; "dst"]
                  disk0 eq_refl)).
  intros [Heq _]. discriminate Heq.
Defined.




(** The source directory given with forward slashes as the destination: the
    call returns [S_OK], and the files of the source are gone. *)
Example CopyToDirectory_other_spelling :
  exists w', CopyToDirectory 3 quiet "C:/src" "C:\src" true disk0 = Ok (S_OK, w')
             /\ files w' !! ["C:"; "src"] = Some (Directory 100)
             /\ files w' !! ["C:"; "src"; "f1"] = None
             /\ files w' !! ["C:"; "src"; "sub"; "f2"] = None.
Proof.
  destruct (CopyToDirectory 3 quiet "C:/src" "C:\src" true disk0)
    as [[hr w']| |] eqn:Hrun; vm_compute in Hrun; try discriminate Hrun.
  injection Hrun as <- <-. eexists. split; [reflexivity|]. repeat split.
Qed.

(** ** A destination that is up to date *)

Lemma up_to_date_spec (m : gmap path node) (s t rel : path) n :
  up_to_date m s t -> m !! (s ++ rel) = Some n ->
  exists n', m !! (t ++ rel) = Some n' /\ not_older n n' = true.
Proof.
  intros Hup Hn. specialize (Hup _ _ Hn). cbn beta in Hup.
  rewrite drop_app_length in Hup.
  destruct (m !! (t ++ rel)) as [n'|]; cbn in Hup.
  - exists n'. split; [reflexivity|]. apply Hup. now exists rel.
  - discriminate Hup. now exists rel.
Qed.

Lemma up_to_date_child (m : gmap path node) (s t : path) n :
  up_to_date m s t -> up_to_date m (s ++ [n]) (t ++ [n]).
Proof.
  intros Hup k nd Hk [rel ->]. cbn beta.
  rewrite drop_app_length, <- !snoc_assoc.
  rewrite <- snoc_assoc in Hk.
  destruct (up_to_date_spec m s t (n :: rel) nd Hup Hk) as (n' & -> & Hn'). exact Hn'.
Qed.

(** Nothing is written and nothing is logged. *)
Lemma CopyDirTo_settled H fuel :
  forall (h : nat) (s t : path) w,
    (h < fuel)%nat -> is_dir (files w) s = true -> bounded (files w) s h ->
    up_to_date (files w) s t ->
    CopyDirTo fuel H s t w = Ok (tt, w).
Proof.
  induction fuel as [|fuel IH]; intros h s t w Hh Hs Hb Hup; [lia|].
  rewrite CopyDirTo_unfold.
  assert (Hperm : CreateDirectory_permitted H (files w) t = false).
  { unfold is_dir in Hs. destruct (files w !! s) as [nd|] eqn:Hnd; [|discriminate].
    rewrite <- (app_nil_r s) in Hnd.
    destruct (up_to_date_spec _ _ _ _ _ Hup Hnd) as (n' & Hn' & _).
    rewrite app_nil_r in Hn'.
    unfold CreateDirectory_permitted. now rewrite (present_Some _ _ _ Hn'). }
  rewrite Hperm. unfold bind at 1, directory_iterator. unfold is_dir in Hs.
  destruct (files w !! s) as [[|tm]|] eqn:Hs'; try discriminate.
  assert (Hloop : forall l,
             (forall x, x ∈ l ->
                exists n nd, files w !! (s ++ [n]) = Some nd
                             /\ x = mkEntry (s ++ [n]) (status nd)) ->
             for_each l (CopyDirTo_body (CopyDirTo fuel H) H t) w = Ok (tt, w)).
  2:{ apply Hloop. intros x Hx. now apply children_spec in Hx. }
  induction l as [|x l IHl]; intros Hentries; [reflexivity|].
  destruct (Hentries x) as (n & nd & Hnd & ->); [left|].
  cbn [for_each]. unfold bind.
  assert (Hbody : CopyDirTo_body (CopyDirTo fuel H) H t
                    (mkEntry (s ++ [n]) (status nd)) w = Ok (tt, w)).
  { unfold CopyDirTo_body. cbn [entry_type entry_path]. rewrite filename_snoc.
    destruct (status nd) eqn:Hty.
    - destruct (up_to_date_spec _ _ _ _ _ Hup Hnd) as (n' & Hn' & Hold).
      unfold not_older in Hold. rewrite Hty in Hold. apply Z.leb_le in Hold.
      apply (CopyDirTo_file_skips H t _ nd n'); cbn [entry_path].
      + exact Hnd.
      + now rewrite filename_snoc.
      + exact Hold.
    - destruct (bounded_child _ _ n _ Hb) as [Hh1 Hbn]; [eauto|].
      apply (IH (h - 1)%nat); [lia | | exact Hbn | now apply up_to_date_child].
      eapply is_dir_status; eauto. }
  rewrite Hbody. apply IHl. intros x Hx. apply Hentries. now right.
Qed.

(** X13. When every entry under the source folder has a counterpart under
    the target folder, not older where the entry is a regular file, a mirror
    step with fuel for the depth of the source leaves the world as it is,
    the log included: nothing is created, no [CopyFile] is attempted, and
    nothing is logged. So does [CopyToDirectory] without [cleanDest], once
    past its guard; it returns [S_OK]. *)
Theorem CopyDirTo_up_to_date (H : host) (fuel : nat) (destination source : wstring)
    (w : world) :
  let s := to_path source in
  let t := to_path destination in
  is_dir (files w) s = true ->
  up_to_date (files w) s t ->
  (depth (files w) < fuel)%nat ->
  CopyDirTo fuel H s t w = Ok (tt, w)
  /\ ((~ exists rest, destination = (source ++ rest)%string) ->
      CopyToDirectory fuel H destination source false w = Ok (S_OK, w)).
Proof.
  intros s t Hs Hup Hfuel.
  assert (Hrun : CopyDirTo fuel H s t w = Ok (tt, w)).
  { apply (CopyDirTo_settled H fuel (depth (files w))); auto using bounded_depth. }
  split; [exact Hrun|].
  intros Hguard. unfold CopyToDirectory.
  rewrite bool_decide_eq_false_2.
  2:{ intros Hfind. apply Hguard. now apply starts_with_spec, find_zero. }
  unfold bind, ret. fold s t. now rewrite Hrun.
Qed.

Lemma CopyDirTo_up_to_date_witness :
  CopyDirTo 5 locked (to_path "C:\src") (to_path "C:\dst") disk2 = Ok (tt, disk2)
  /\ CopyToDirectory 5 locked "C:\dst" "C:\src" false disk2 = Ok (S_OK, disk2).
Proof.
  assert (Hup : up_to_date (files disk2) (to_path "C:\src") (to_path "C:\dst")).
  { apply (bool_decide_unpack (up_to_date (files disk2) (to_path "C:\src")
                                 (to_path "C:\dst"))).
    vm_compute. exact I. }
  assert (Hfuel : (depth (files disk2) < 5)%nat).
  { vm_compute. lia. }
  destruct (CopyDirTo_up_to_date locked 5 "C:\dst" "C:\src" disk2 eq_refl Hup Hfuel)
    as [Hrun Hcall].
  split; [exact Hrun|]. apply Hcall.
  intros [rest Hrest]. discriminate Hrest.
Defined.

(** ** A clean run on a host that refuses nothing *)








(** ** The log *)

(** The branch for a regular file, by what it leaves. *)
Lemma CopyDirTo_file_cases H (t : path) (e : directory_entry) w w' :
  CopyDirTo_file H t e w = Ok (tt, w') ->
  let d := t // filename (entry_path e) in
  w' = w
  \/ w' = mkWorld (files w) (log w ++ [LogLastError])
  \/ exists tm c, files w !! entry_path e = Some (File tm c)
                  /\ is_dir (files w) d = false
                  /\ (forall nd, files w !! d = Some nd -> write_time nd < tm)
                  /\ w' = mkWorld (<[d := File tm c]> (files w))
                            (log w ++ [LogInfo "WOW"]).
Proof.
  intros Hrun d. revert Hrun. unfold CopyDirTo_file. fold d.
  unfold bind, fs_exists, last_write_time, CopyFile, LOG_INFO, LOG_LAST_ERROR, ret.
  assert (Hperm : forall src, CopyFile_permitted H (files w) src d false = true ->
                              is_dir (files w) d = false).
  { unfold CopyFile_permitted. intros src Hp.
    destruct (is_dir (files w) d); [|reflexivity].
    rewrite andb_false_r in Hp. cbn in Hp. discriminate. }
  case_matches; intros Hrun; simplify_eq; cbn [files log]; auto.
  all: right; right; eexists _, _; split; [reflexivity|]; split; [eauto|];
    split; [|reflexivity].
  all: intros nd' Hnd'; unfold present in *; cbn [write_time] in *.
  all: repeat match goal with
              | Hle : (_ <=? _) = false |- _ => apply Z.leb_gt in Hle
              end.
  all: try congruence.
  all: rewrite Hnd' in *; discriminate.
Qed.

Section Invariant.

Variable H : host.
Variable R : world -> world -> Prop.

Hypothesis R_refl : forall w, R w w.
Hypothesis R_trans : forall w1 w2 w3, R w1 w2 -> R w2 w3 -> R w1 w3.
Hypothesis R_create : forall t w,
  files w !! t = None -> R w (mkWorld (<[t := Directory (now H)]> (files w)) (log w)).
Hypothesis R_fail : forall w, R w (mkWorld (files w) (log w ++ [LogLastError])).
Hypothesis R_copy : forall d tm c w,
  is_dir (files w) d = false ->
  (forall nd, files w !! d = Some nd -> write_time nd < tm) ->
  R w (mkWorld (<[d := File tm c]> (files w)) (log w ++ [LogInfo "WOW"])).

(** A relation on worlds that holds of each write and each log record holds
    of a mirror step that returns. *)
Lemma CopyDirTo_invariant fuel :
  forall (s t : path) w w', CopyDirTo fuel H s t w = Ok (tt, w') -> R w w'.
Proof.
  induction fuel as [|fuel IH]; intros s t w w' Hrun; [discriminate|].
  rewrite CopyDirTo_unfold in Hrun.
  apply bind_Ok in Hrun as (entries & w1 & Hls & Hrun).
  assert (Hstart : R w w1).
  { unfold directory_iterator in Hls.
    destruct (CreateDirectory_permitted H (files w) t) eqn:Hp.
    - destruct (files _ !! s) as [[|tm]|]; try discriminate. injection Hls as _ <-.
      apply R_create. unfold CreateDirectory_permitted, present in Hp.
      destruct (files w !! t); [discriminate | reflexivity].
    - destruct (files w !! s) as [[|tm]|]; try discriminate. injection Hls as _ <-.
      apply R_refl. }
  apply (R_trans _ _ _ Hstart). clear Hls Hstart.
  revert w1 Hrun. induction entries as [|e l IHl]; intros w1 Hrun.
  - injection Hrun as <-. apply R_refl.
  - apply for_each_cons_Ok in Hrun as (w2 & Hbody & Hrest).
    apply (R_trans _ w2); [|now apply IHl].
    unfold CopyDirTo_body in Hbody. destruct (entry_type e).
    + apply CopyDirTo_file_cases in Hbody.
      destruct Hbody as [-> | [-> | (tm & c & _ & Hdir & Hold & ->)]];
        [apply R_refl | apply R_fail | now apply R_copy].
    + now apply IH in Hbody.
Qed.

End Invariant.

Lemma CopyDirTo_logged H fuel (s t : path) w w' :
  CopyDirTo fuel H s t w = Ok (tt, w') ->
  advanced (files w) (files w') /\ logged w w'.
Proof.
  apply (CopyDirTo_invariant H (fun w w' => advanced (files w) (files w') /\ logged w w')).
  - intros w0. split; [apply advanced_refl|]. exists [].
    split; [now rewrite app_nil_r|]. split; [constructor|]. split.
    + intros Hin. now apply elem_of_nil in Hin.
    + intros (k & tm & c & Hk & Hne). contradiction.
  - intros w1 w2 w3 [Ha12 (l12 & Hl12 & Hk12 & Hw12)] [Ha23 (l23 & Hl23 & Hk23 & Hw23)].
    split; [eapply advanced_trans; eauto|].
    exists (l12 ++ l23). split; [now rewrite Hl23, Hl12, app_assoc|].
    split; [now apply Forall_app|].
    rewrite elem_of_app, Hw12, Hw23. split.
    + intros [(k & tm & c & Hk2 & Hk1) | (k & tm & c & Hk3 & Hk2)].
      * destruct (Ha23 _ _ Hk2) as [Hsame | (tm' & c' & Hk3 & _ & Hlt)].
        { exists k, tm, c. auto. }
        exists k, tm', c'. split; [exact Hk3|]. intros Hk1'.
        destruct (Ha12 _ _ Hk1') as [Hsame | (tm2 & c2 & Hk2' & _ & Hlt2)].
        -- rewrite Hk2 in Hsame. injection Hsame as -> ->. cbn in Hlt. lia.
        -- rewrite Hk2 in Hk2'. injection Hk2' as <- <-. cbn in Hlt, Hlt2. lia.
      * exists k, tm, c. split; [exact Hk3|]. intros Hk1.
        destruct (Ha12 _ _ Hk1) as [Hsame | (tm2 & c2 & Hk2' & _ & Hlt2)]; [contradiction|].
        destruct (Ha23 _ _ Hk2') as [Hsame | (tm3 & c3 & Hk3' & _ & Hlt3)].
        -- rewrite Hk3 in Hsame. injection Hsame as <- <-. cbn in Hlt2. lia.
        -- rewrite Hk3 in Hk3'. injection Hk3' as <- <-. cbn in Hlt2, Hlt3. lia.
    + intros (k & tm & c & Hk3 & Hk1).
      destruct (decide (files w2 !! k = Some (File tm c))) as [Hk2 | Hk2].
      * left. exists k, tm, c. auto.
      * right. exists k, tm, c. auto.
  - intros p w0 Hp. split; [now apply advanced_create|]. exists [].
    split; [now rewrite app_nil_r|]. split; [constructor|]. cbn [files]. split.
    + intros Hin. now apply elem_of_nil in Hin.
    + intros (k & tm & c & Hk & Hne). destruct (decide (p = k)) as [<-|Hpk].
      * rewrite lookup_insert_eq in Hk. discriminate.
      * rewrite lookup_insert_ne in Hk by exact Hpk. contradiction.
  - intros w0. split; [apply advanced_refl|]. exists [LogLastError].
    split; [reflexivity|]. split; [constructor; [now right | constructor]|].
    cbn [files]. split.
    + intros Hin. apply list_elem_of_singleton in Hin. discriminate.
    + intros (k & tm & c & Hk & Hne). contradiction.
  - intros d tm c w0 Hdir Hold. split; [now apply advanced_copy|]. exists [LogInfo "WOW"].
    split; [reflexivity|]. split; [constructor; [now left | constructor]|].
    cbn [files]. split.
    + intros _. exists d, tm, c. split; [apply lookup_insert_eq|].
      intros Hd. apply Hold in Hd. cbn in Hd. lia.
    + intros _. apply list_elem_of_singleton. reflexivity.
Qed.

(** X16. A mirror step that returns only adds to the log, and what it adds
    are "WOW" information records and last-error records; a "WOW" is among
    them exactly when some regular file is not as it was before the step. *)
Theorem CopyDirTo_logs_its_copies (H : host) (fuel : nat) (s t : path) (w w' : world) :
  CopyDirTo fuel H s t w = Ok (tt, w') ->
  exists l,
    log w' = log w ++ l
    /\ Forall (fun r => r = LogInfo "WOW" \/ r = LogLastError) l
    /\ (LogInfo "WOW" ∈ l
        <-> exists k tm c, files w' !! k = Some (File tm c)
                           /\ files w !! k <> Some (File tm c)).
Proof. intros Hrun. now apply CopyDirTo_logged in Hrun as [_ Hlog]. Qed.

Lemma CopyDirTo_logs_its_copies_witness :
  exists w' l,
    CopyDirTo 3 locked ["C:"; "src"] ["C:"; "dst"] disk0 = Ok (tt, w')
    /\ log w' = log disk0 ++ l
    /\ Forall (fun r => r = LogInfo "WOW" \/ r = LogLastError) l
    /\ (LogInfo "WOW" ∈ l
        <-> exists k tm c, files w' !! k = Some (File tm c)
                           /\ files disk0 !! k <> Some (File tm c)).
Proof.
  destruct (CopyDirTo 3 locked ["C:"; "src"] ["C:"; "dst"] disk0)
    as [[[] w']| |] eqn:Hrun; [|vm_compute in Hrun; discriminate Hrun ..].
  destruct (CopyDirTo_logs_its_copies locked 3 ["C:"; "src"] ["C:"; "dst"] disk0 w' Hrun)
    as (l & Hl).
  exists w', l. split; [reflexivity | exact Hl].
Defined.

(** ** When [CopyToDirectory] throws *)



(** ** The synchronizer, file by file *)



Lemma sum_list_fmap_ext {A : Type} (f g : A -> nat) (l : list A) :
  (forall x, x ∈ l -> f x = g x) -> sum_list (f <$> l) = sum_list (g <$> l).
Proof.
  induction l as [|x l IH]; intros Hfg; [reflexivity|].
  rewrite !fmap_cons. cbn [sum_list_with]. rewrite (Hfg x) by left.
  rewrite IH; [reflexivity|]. intros y Hy. apply Hfg. now right.
Qed.





(** ** A destination inside the source *)



